(** * The Photoshop extension client (client.js)

    A shallow embedding of [avalon/photoshop/extension/client/client.js]:
    the script run by the panel of the Photoshop extension.  It opens a
    WSRPC connection, registers five routes whose handlers render a line of
    host script and hand it to [csInterface.evalScript], and escapes text
    for the host with [EscapeStringForJSX]. *)

From stdpp Require Import gmap list strings.

Set Warnings "-register-all".
Open Scope N_scope.

(** ** Strings

    A JavaScript string is a sequence of UTF-16 code units.  The regular
    expressions of the program have no [u] flag, so they see code units. *)

Definition code_unit : Type := N.
Definition jsstr : Type := list code_unit.

(** The code units of a literal of the program text (ASCII only). *)
Fixpoint lit (s : string) : jsstr :=
  match s with
  | EmptyString => []
  | String a rest => Ascii.N_of_ascii a :: lit rest
  end.
Arguments lit _%_string.

Definition backslash : code_unit := 92.
Definition quote : code_unit := 39.
Definition dquote : code_unit := 34.

(** ** Values

    A payload reaches a route handler out of [JSON.parse], so the values are
    those of JSON, and [undefined] for what a missing property reads as.  The
    program never computes with a number, it only converts one to text: the
    IEEE double is not modelled and a number is carried by the text that
    [Number.prototype.toString] produces for it. *)

Record number : Type := Num { number_text : jsstr }.

Inductive value : Type :=
  | VUndefined
  | VNull
  | VBool (b : bool)
  | VNumber (n : number)
  | VString (s : jsstr)
  | VArray (elems : list value)
  | VObject (props : list (jsstr * value)).

(** ** Completions: a value, or a thrown exception *)

Inductive error : Type := TypeError.

Inductive completion (A : Type) : Type :=
  | Normal (a : A)
  | Throw (e : error).
Arguments Normal {A} a.
Arguments Throw {A} e.

#[global] Instance completion_ret : MRet completion := @Normal.
#[global] Instance completion_bind : MBind completion := λ A B f m,
  match m with
  | Normal a => f a
  | Throw e => Throw e
  end.

(** ** Property access and conversion to text *)

Fixpoint own_property (props : list (jsstr * value)) (k : jsstr) : option value :=
  match props with
  | [] => None
  | (k', v) :: rest => if decide (k' = k) then Some v else own_property rest k
  end.

(** [v.k] for the property names the handlers read ([image_path], [ext],
    [as_copy], [layer_id], [visibility]): no built-in prototype has them, so
    they are found among the own properties of an object or not at all.
    Reading a property of [undefined] or [null] throws. *)
Definition Get (v : value) (k : jsstr) : completion value :=
  match v with
  | VUndefined | VNull => Throw TypeError
  | VObject props => Normal (default VUndefined (own_property props k))
  | VBool _ | VNumber _ | VString _ | VArray _ => Normal VUndefined
  end.

(** [ToString(ToPrimitive(v))], what the [+] operator applies to an operand
    when the other one is a string.  An array is joined with commas, its
    [null] and [undefined] elements giving the empty text.  An object parsed
    from JSON holds no function: with an own [toString] property neither
    [valueOf] nor [toString] yields a primitive and the conversion throws,
    without one [Object.prototype.toString] answers. *)
Fixpoint ToString (v : value) : completion jsstr :=
  match v with
  | VUndefined => Normal (lit "undefined")
  | VNull => Normal (lit "null")
  | VBool true => Normal (lit "true")
  | VBool false => Normal (lit "false")
  | VNumber n => Normal (number_text n)
  | VString s => Normal s
  | VArray elems =>
      let element (x : value) : completion jsstr :=
        match x with
        | VUndefined | VNull => Normal []
        | _ => ToString x
        end in
      (fix join (l : list value) : completion jsstr :=
         match l with
         | [] => Normal []
         | [x] => element x
         | x :: rest =>
             match element x with
             | Normal a =>
                 match join rest with
                 | Normal b => Normal (a ++ lit "," ++ b)
                 | Throw e => Throw e
                 end
             | Throw e => Throw e
             end
         end) elems
  | VObject props =>
      match own_property props (lit "toString") with
      | Some _ => Throw TypeError
      | None => Normal (lit "[object Object]")
      end
  end.

(** [l + r] where [l] is a string: concatenation with the text of [r]. *)
Definition string_plus (l : jsstr) (r : value) : completion jsstr :=
  t ← ToString r; mret (l ++ t).

(** ** EscapeStringForJSX *)

(** [s.replace(/c/g, by)] for a pattern that is one code unit and a
    replacement text without [$]: every occurrence of [c] becomes [by]. *)
Definition replace_all (c : code_unit) (by_ : jsstr) (s : jsstr) : jsstr :=
  flat_map (λ x, if decide (x = c) then by_ else [x]) s.

(** [v.replace(/c/g, by)]: only a string has a [replace] method; on every
    other payload value the call throws ([undefined] and [null] have no
    properties, and no other value holds a callable [replace]). *)
Definition call_replace (v : value) (c : code_unit) (by_ : jsstr) : completion value :=
  match v with
  | VString s => Normal (VString (replace_all c by_ s))
  | _ => Throw TypeError
  end.

Definition EscapeStringForJSX (str : value) : completion value :=
  r1 ← call_replace str backslash (lit "\\");
  r2 ← call_replace r1 quote (lit "\'");
  call_replace r2 dquote [backslash; dquote].

(** The replacement the comment above the function describes, one code
    unit at a time. *)
Definition escape_unit (c : code_unit) : jsstr :=
  if decide (c = backslash) then [backslash; backslash]
  else if decide (c = quote) then [backslash; quote]
  else if decide (c = dquote) then [backslash; dquote]
  else [c].

Definition escape_each (s : jsstr) : jsstr := flat_map escape_unit s.

(** ** The host's reading of a single-quoted string literal

    The host script is ECMAScript 3 (ExtendScript).  After the opening quote
    the lexer reads up to the closing quote; a backslash starts an escape
    sequence and a raw line terminator is a syntax error (ECMA-262, 7.8.4).
    [None] is the syntax error.  Octal escapes, an extension, are not read:
    a backslash before a decimal digit answers [None] as well. *)

Inductive lex_mode : Type :=
  | InBody
  | AfterBackslash
  | InHex (remaining : nat) (acc : N).

Definition is_line_terminator (c : code_unit) : bool :=
  bool_decide (c = 10) || bool_decide (c = 13)
  || bool_decide (c = 8232) || bool_decide (c = 8233).

Definition is_decimal_digit (c : code_unit) : bool :=
  (48 <=? c) && (c <=? 57).

Definition hex_value (c : code_unit) : option N :=
  if (48 <=? c) && (c <=? 57) then Some (c - 48)
  else if (97 <=? c) && (c <=? 102) then Some (c - 87)
  else if (65 <=? c) && (c <=? 70) then Some (c - 55)
  else None.

(** [\b \f \n \r \t \v]; every other character stands for itself. *)
Definition single_escape (c : code_unit) : code_unit :=
  if decide (c = 98) then 8
  else if decide (c = 102) then 12
  else if decide (c = 110) then 10
  else if decide (c = 114) then 13
  else if decide (c = 116) then 9
  else if decide (c = 118) then 11
  else c.

Definition prepend (c : code_unit) (r : option (jsstr * jsstr)) : option (jsstr * jsstr) :=
  match r with
  | Some (v, rest) => Some (c :: v, rest)
  | None => None
  end.

(** The string value of the literal and the source text left after its
    closing quote. *)
Fixpoint read_single_quoted (m : lex_mode) (src : jsstr) : option (jsstr * jsstr) :=
  match src with
  | [] => None
  | c :: rest =>
      match m with
      | InBody =>
          if decide (c = quote) then Some ([], rest)
          else if decide (c = backslash) then read_single_quoted AfterBackslash rest
          else if is_line_terminator c then None
          else prepend c (read_single_quoted InBody rest)
      | AfterBackslash =>
          if is_line_terminator c then None
          else if is_decimal_digit c then None
          else if decide (c = 120) then read_single_quoted (InHex 2 0) rest
          else if decide (c = 117) then read_single_quoted (InHex 4 0) rest
          else prepend (single_escape c) (read_single_quoted InBody rest)
      | InHex n acc =>
          match hex_value c, n with
          | Some d, 1%nat => prepend (16 * acc + d) (read_single_quoted InBody rest)
          | Some d, S n' => read_single_quoted (InHex n' (16 * acc + d)) rest
          | _, _ => None
          end
      end
  end.

(** The value of [body] written between two single quotes, when the
    closing quote is the one written after it. *)
Definition literal_value (body : jsstr) : option jsstr :=
  match read_single_quoted InBody (body ++ [quote]) with
  | Some (v, []) => Some v
  | _ => None
  end.

Definition has_line_terminator (s : jsstr) : bool := existsb is_line_terminator s.

(** ** The endpoint address *)

Record location : Type := Location { protocol : jsstr; host : jsstr }.

(** The first assignment to [url]. *)
Definition url_from_location (loc : location) : jsstr :=
  (if decide (protocol loc = lit "https):") then lit "wss://" else lit "ws://")
    ++ host loc ++ lit "/ws/".

(** [url] and the timeout as [new WSRPC(url, 5000)] receives them. *)
Definition WSRPC_arguments (loc : location) : jsstr * Z :=
  let url := url_from_location loc in
  let url := lit "ws://localhost:8099/ws/" in
  (url, 5000%Z).

(** What [window.location.protocol] can be: a URL scheme (a letter, then
    letters, digits, [+], [-] or [.]) and a colon. *)
Definition is_alpha (c : code_unit) : bool :=
  ((97 <=? c) && (c <=? 122)) || ((65 <=? c) && (c <=? 90)).

Definition is_scheme_unit (c : code_unit) : bool :=
  is_alpha c || is_decimal_digit c
  || bool_decide (c = 43) || bool_decide (c = 45) || bool_decide (c = 46).

Fixpoint scheme_then_colon (p : jsstr) : bool :=
  match p with
  | [] => false
  | [c] => bool_decide (c = 58)
  | c :: rest => is_scheme_unit c && scheme_then_colon rest
  end.

Definition is_protocol (p : jsstr) : bool :=
  match p with
  | c :: _ => is_alpha c && scheme_then_colon p
  | [] => false
  end.

(** ** Effects: the console, the scripting host and the promises

    [Eff S A] is a computation over a store [S] that ends with a value or a
    thrown exception; what it did to the store before throwing stays. *)

Definition Eff (S A : Type) : Type := S → S * completion A.

#[global] Instance Eff_ret {S} : MRet (Eff S) := λ A a s, (s, Normal a).
#[global] Instance Eff_bind {S} : MBind (Eff S) := λ A B f m s,
  match m s with
  | (s', Normal a) => f a s'
  | (s', Throw e) => (s', Throw e)
  end.

(** A computation that touches no store. *)
Definition lift {S A} (c : completion A) : Eff S A := λ s, (s, c).

(** A promise is known by its address in the heap. *)
Abbreviation promise := nat.

Inductive settlement : Type :=
  | Pending
  | Fulfilled (v : value)
  | Rejected (e : error).

(** One call of [log.warn]: its arguments. *)
Definition log_entry : Type := list value.

(** A function given to [then].  Those of this program write to the console
    and return, so a callback is a computation over the console. *)
Definition then_callback : Type := value → Eff (list log_entry) value.

Record reaction : Type := Reaction {
  on_fulfilled : then_callback;
  derived : promise
}.

Record cell : Type := Cell {
  status : settlement;
  reactions : list reaction
}.

(** The callback given to [csInterface.evalScript]: in this program always
    the [resolve] function of a promise. *)
Inductive host_callback : Type := Resolve (p : promise).

Record state : Type := State {
  console : list log_entry;
  (** the calls of [csInterface.evalScript], oldest first *)
  evalScript_calls : list (jsstr * host_callback);
  (** the promises, by address *)
  heap : list cell
}.

Definition set_console (c : list log_entry) (s : state) : state :=
  State c (evalScript_calls s) (heap s).
Definition set_heap (h : list cell) (s : state) : state :=
  State (console s) (evalScript_calls s) h.

Definition on_console {A} (m : Eff (list log_entry) A) : Eff state A := λ s,
  let '(c, r) := m (console s) in (set_console c s, r).

Definition log_warn (args : list value) : Eff (list log_entry) unit := λ c,
  (c ++ [args], Normal ()).

Definition status_of (p : promise) (s : state) : option settlement :=
  status <$> heap s !! p.

(** What a reaction makes of the settlement of its promise: the callback
    runs on a fulfilment, and its return value or its exception settles the
    derived promise; a rejection passes through ([then] is given no second
    function). *)
Definition run_reaction (r : reaction) (o : settlement) (s : state) : state * settlement :=
  match o with
  | Fulfilled v =>
      match on_fulfilled r v (console s) with
      | (c, Normal v') => (set_console c s, Fulfilled v')
      | (c, Throw e) => (set_console c s, Rejected e)
      end
  | _ => (s, o)
  end.

(** Settling a promise: nothing happens to a settled one; a pending one
    takes the settlement and its reactions run, each settling its derived
    promise in turn.  A derived promise is allocated after the one it derives
    from, so a chain is no longer than the heap: [settle_promise] below
    starts with that much fuel. *)
Fixpoint settle (fuel : nat) (p : promise) (o : settlement) (s : state) : state :=
  match fuel with
  | O => s
  | S fuel' =>
      match heap s !! p with
      | Some (Cell Pending rs) =>
          foldl (λ s r, let '(s', o') := run_reaction r o s in
                        settle fuel' (derived r) o' s')
                (set_heap (<[p := Cell o []]> (heap s)) s) rs
      | _ => s
      end
  end.

Definition settle_promise (p : promise) (o : settlement) (s : state) : state :=
  settle (length (heap s)) p o s.

(** [new Promise(executor)], before the executor runs. *)
Definition new_promise : Eff state promise := λ s,
  (set_heap (heap s ++ [Cell Pending []]) s, Normal (length (heap s))).

(** [csInterface.evalScript(script, callback)]: the host takes the script
    and the callback and answers later (see [host_answers]).  The call
    itself does not throw: a script that fails is reported to the callback,
    as a text. *)
Definition evalScript (script : jsstr) (callback : host_callback) : Eff state unit := λ s,
  (State (console s) (evalScript_calls s ++ [(script, callback)]) (heap s), Normal ()).

(** The host calls the callback of its [i]-th call with the result of the
    script, a string (an error indication is a string as well). *)
Definition host_answers (i : nat) (result : jsstr) (s : state) : state :=
  match evalScript_calls s !! i with
  | Some (_, Resolve p) => settle_promise p (Fulfilled (VString result)) s
  | None => s
  end.

(** [p.then(f)] *)
Definition then_ (p : promise) (f : then_callback) : Eff state promise := λ s,
  let q := length (heap s) in
  let s1 := set_heap (heap s ++ [Cell Pending []]) s in
  match heap s !! p with
  | Some (Cell Pending rs) =>
      (set_heap (<[p := Cell Pending (rs ++ [Reaction f q])]> (heap s1)) s1, Normal q)
  | Some (Cell o _) =>
      let '(s2, o') := run_reaction (Reaction f q) o s1 in
      (settle_promise q o' s2, Normal q)
  | None => (s, Throw TypeError)
  end.

(** ** The program *)

Definition runEvalScript (script : jsstr) : Eff state promise :=
  p ← new_promise;
  evalScript script (Resolve p);;
  mret p.

(** [l + r] as an expression: the operands are evaluated left to right,
    then the right one is converted. *)
Definition plus (l : completion jsstr) (r : completion value) : completion jsstr :=
  a ← l; v ← r; string_plus a v.
Notation "l +s r" := (plus l r) (at level 50, left associativity).

Definition str (s : string) : completion value := Normal (VString (lit s)).
Arguments str _%_string.

Definition route_read (data : value) : Eff state promise :=
  on_console (log_warn [VString (lit "Server called client route " ++ [dquote]
                                   ++ lit "read" ++ [dquote] ++ lit ":"); data]);;
  p ← runEvalScript (lit "getHeadline()");
  then_ p (λ result,
    t ← lift (string_plus (lit "getHeadline: ") result);
    log_warn [VString t];;
    mret result).

Definition route_get_layers (data : value) : Eff state promise :=
  on_console (log_warn [VString (lit "Server called client route " ++ [dquote]
                                   ++ lit "get_layers" ++ [dquote] ++ lit ":"); data]);;
  p ← runEvalScript (lit "getLayers()");
  then_ p (λ result,
    t ← lift (string_plus (lit "getLayers: ") result);
    log_warn [VString t];;
    mret result).

Definition route_saveAs (data : value) : Eff state promise :=
  on_console (log_warn [VString (lit "Server called client route " ++ [dquote]
                                   ++ lit "saveAsJPEG" ++ [dquote] ++ lit ":"); data]);;
  image_path ← lift (Get data (lit "image_path"));
  escapedPath ← lift (EscapeStringForJSX image_path);
  script ← lift (Normal (lit "saveAs('") +s Normal escapedPath +s str "', " +s
                 str "'" +s Get data (lit "ext") +s str "', " +s
                 Get data (lit "as_copy") +s str ")");
  p ← runEvalScript script;
  then_ p (λ result,
    t ← lift (string_plus (lit "save: ") result);
    log_warn [VString t];;
    mret result).

Definition route_set_visible (data : value) : Eff state promise :=
  on_console (log_warn [VString (lit "Server called client route " ++ [dquote]
                                   ++ lit "saveAsJPEG" ++ [dquote] ++ lit ":"); data]);;
  script ← lift (Normal (lit "setVisible(") +s Get data (lit "layer_id") +s str ", "
                 +s Get data (lit "visibility") +s str ")");
  p ← runEvalScript script;
  then_ p (λ result,
    t ← lift (string_plus (lit "setVisible: ") result);
    log_warn [VString t];;
    mret result).

Definition route_get_active_document_name (data : value) : Eff state promise :=
  on_console (log_warn [VString (lit "Server called client route " ++ [dquote]
                                   ++ lit "get_active_document_name" ++ [dquote] ++ lit ":"); data]);;
  p ← runEvalScript (lit "getActiveDocumentName()");
  then_ p (λ result,
    t ← lift (string_plus (lit "save: ") result);
    log_warn [VString t];;
    mret result).

(** ** The route table and its dispatch *)

Definition handler : Type := value → Eff state promise.

(** Modelled from the spec: [RPC.addRoute] belongs to the RPC library
    (wsrpc.js), which is not among the sources.  A Route Entry maps a
    procedure name to a handler, and the last registration of a name wins. *)
Definition addRoute (name : jsstr) (h : handler)
    (routes : gmap jsstr handler) : gmap jsstr handler :=
  <[name := h]> routes.

(** The five calls of [RPC.addRoute], in the order of the program. *)
Definition client_routes : gmap jsstr handler :=
  addRoute (lit "Photoshop.get_active_document_name") route_get_active_document_name
    (addRoute (lit "Photoshop.set_visible") route_set_visible
      (addRoute (lit "Photoshop.saveAs") route_saveAs
        (addRoute (lit "Photoshop.get_layers") route_get_layers
          (addRoute (lit "Photoshop.read") route_read ∅)))).

(** Modelled from the spec: the kinds of call-level error (7); [RemoteError]
    is the error detail of an error-response of the peer. *)
Inductive call_error : Type :=
  | UnknownProcedure
  | HandlerFailure (e : error)
  | Timeout
  | ConnectionLost
  | RemoteError (detail : value).

(** Modelled from the spec: the Call Envelopes (3) a dispatch is answered
    with, a response or an error-response. *)
Inductive envelope : Type :=
  | Response (correlation_id : nat) (payload : value)
  | ErrorResponse (correlation_id : nat) (detail : call_error).

(** Modelled from the spec: how a dispatch stands (4.4), failed at once or
    waiting for the eventual result of the handler. *)
Inductive dispatched : Type :=
  | Failed (detail : call_error)
  | Awaiting (p : promise).

(** Modelled from the spec: the dispatch of the Route Table (4.4), part of
    wsrpc.js.  Without a handler for the name nothing is invoked and the
    error is [UnknownProcedure]; an exception of the handler is captured as a
    [HandlerFailure]. *)
Definition dispatch (routes : gmap jsstr handler) (name : jsstr)
    (payload : value) : Eff state dispatched := λ s,
  match routes !! name with
  | None => (s, Normal (Failed UnknownProcedure))
  | Some h =>
      match h payload s with
      | (s', Normal p) => (s', Normal (Awaiting p))
      | (s', Throw e) => (s', Normal (Failed (HandlerFailure e)))
      end
  end.

(** Modelled from the spec: the envelope sent once the dispatch has settled
    (4.5, inbound message handling, step 2); [None] while it has not. *)
Definition reply (correlation_id : nat) (d : dispatched) (s : state) : option envelope :=
  match d with
  | Failed detail => Some (ErrorResponse correlation_id detail)
  | Awaiting p =>
      match status_of p s with
      | Some (Fulfilled v) => Some (Response correlation_id v)
      | Some (Rejected e) => Some (ErrorResponse correlation_id (HandlerFailure e))
      | _ => None
      end
  end.

(** ** The Pending-Call Registry *)

Module Registry.

(** Modelled from the spec: the completion slot of a Pending Call (3), once
    settled. *)
Inductive outcome : Type :=
  | Success (result : value)
  | Failure (err : call_error).

(** Modelled from the spec: the three ways an entry is settled (4.3). *)
Inductive cause : Type :=
  | MatchingResponse
  | TimerExpiry
  | Drain.

(** Modelled from the spec: the bookkeeping of a Pending Call (3); its id is
    its key in the registry. *)
Record pending_call : Type := PendingCall {
  procedure_name : jsstr;
  timeout_duration : N
}.

(** One settlement of a completion future. *)
Record settled : Type := Settled {
  settled_id : nat;
  settled_by : cause;
  settled_with : outcome
}.

(** Modelled from the spec: the Pending-Call Registry (4.3) is part of
    wsrpc.js, which is not among the sources.  The registry owns the
    entries of the calls awaiting a result and a counter for the next
    correlation id; [settlements] records every settlement of a completion
    future, oldest first, and [anomalies] the ids of the settlement
    attempts that found no entry. *)
Record registry : Type := Reg {
  next_id : nat;
  entries : gmap nat pending_call;
  settlements : list settled;
  anomalies : list nat
}.

Definition empty : registry := Reg 0 ∅ [] [].

(** Modelled from the spec: [register] allocates the next id of a
    monotonically increasing counter. *)
Definition register (name : jsstr) (timeout : N) (r : registry) : nat * registry :=
  (next_id r,
   Reg (S (next_id r)) (<[next_id r := PendingCall name timeout]> (entries r))
       (settlements r) (anomalies r)).

(** Modelled from the spec: [resolve] and [reject] settle the matching
    entry and remove it (which cancels its timer); without a matching entry
    the attempt does nothing but log an anomaly. *)
Definition settle_entry (id : nat) (o : outcome) (r : registry) : registry :=
  match entries r !! id with
  | Some _ =>
      Reg (next_id r) (delete id (entries r))
          (settlements r ++ [Settled id MatchingResponse o]) (anomalies r)
  | None => Reg (next_id r) (entries r) (settlements r) (anomalies r ++ [id])
  end.

Definition resolve (id : nat) (result : value) : registry → registry :=
  settle_entry id (Success result).
Definition reject (id : nat) (err : call_error) : registry → registry :=
  settle_entry id (Failure err).

(** Modelled from the spec: [expire], invoked by the timer, settles the
    entry with [Timeout] if it is still there. *)
Definition expire (id : nat) (r : registry) : registry :=
  match entries r !! id with
  | Some _ =>
      Reg (next_id r) (delete id (entries r))
          (settlements r ++ [Settled id TimerExpiry (Failure Timeout)]) (anomalies r)
  | None => r
  end.

(** Modelled from the spec: [drainAll] settles every registered entry with
    the given error and clears the registry. *)
Definition drainAll (err : call_error) (r : registry) : registry :=
  Reg (next_id r) ∅
      (settlements r
         ++ ((λ kv : nat * pending_call, Settled kv.1 Drain (Failure err))
               <$> map_to_list (entries r)))
      (anomalies r).

(** Modelled from the spec: what the Session (4.5) does to the registry.  A
    call is issued, a response or an error-response arrives, a timer fires,
    the connection is lost. *)
Inductive event : Type :=
  | Call (name : jsstr) (timeout : N)
  | GotResponse (id : nat) (result : value)
  | GotErrorResponse (id : nat) (detail : value)
  | TimerFired (id : nat)
  | ConnectionClosed.

Definition step (r : registry) (e : event) : registry :=
  match e with
  | Call name timeout => (register name timeout r).2
  | GotResponse id result => resolve id result r
  | GotErrorResponse id detail => reject id (RemoteError detail) r
  | TimerFired id => expire id r
  | ConnectionClosed => drainAll ConnectionLost r
  end.

Definition run (es : list event) : registry := foldl step empty es.

Definition settled_ids (r : registry) : list nat := settled_id <$> settlements r.

(** The calls issued in a sequence of events: the ids handed out are the
    numbers below it. *)
Fixpoint calls_in (es : list event) : nat :=
  match es with
  | [] => 0
  | Call _ _ :: rest => S (calls_in rest)
  | _ :: rest => calls_in rest
  end.

(** The settlements recorded for an id. *)
Definition settlements_of (id : nat) (r : registry) : list settled :=
  filter (λ x, settled_id x = id) (settlements r).

(** A settlement is the work of an event of the sequence: a success is the
    result of a response with that id, a remote error the detail of an
    error-response with that id, a timeout the expiry of the timer of that
    id, a connection loss the drain at a close of the connection. *)
Definition explained_by (es : list event) (x : settled) : Prop :=
  match settled_by x, settled_with x with
  | MatchingResponse, Success result => GotResponse (settled_id x) result ∈ es
  | MatchingResponse, Failure (RemoteError detail) =>
      GotErrorResponse (settled_id x) detail ∈ es
  | TimerExpiry, Failure Timeout => TimerFired (settled_id x) ∈ es
  | Drain, Failure ConnectionLost => ConnectionClosed ∈ es
  | _, _ => False
  end.

(** Every id handed out is either still registered or settled, never
    both, and no id is settled twice. *)
Record consistent (r : registry) : Prop := Consistent {
  settled_once : NoDup (settled_ids r);
  pending_fresh : ∀ id, is_Some (entries r !! id) →
                        (id < next_id r)%nat ∧ id ∉ settled_ids r;
  settled_known : ∀ id, id ∈ settled_ids r → (id < next_id r)%nat;
  none_lost : ∀ id, (id < next_id r)%nat →
                    is_Some (entries r !! id) ∨ id ∈ settled_ids r
}.

End Registry.

(** ** What can happen to the panel

    The program acts on the state through [log.warn], [runEvalScript] and
    [then]; the host acts on it by answering a call of [evalScript]. *)

Inductive action : Type :=
  | HostAnswers (i : nat) (result : jsstr)
  | LogWarn (args : list value)
  | RunEvalScript (script : jsstr)
  | Then (p : promise) (f : then_callback).

Definition perform (s : state) (a : action) : state :=
  match a with
  | HostAnswers i result => host_answers i result s
  | LogWarn args => (on_console (log_warn args) s).1
  | RunEvalScript script => (runEvalScript script s).1
  | Then p f => (then_ p f s).1
  end.

Definition perform_all (acts : list action) (s : state) : state :=
  foldl perform s acts.

Definition is_answer_to (k : nat) (a : action) : bool :=
  match a with
  | HostAnswers i _ => bool_decide (i = k)
  | _ => false
  end.

(** No reaction of [s] settles [p]. *)
Definition avoids (p : promise) (s : state) : Prop :=
  Forall (λ c, Forall (λ r, derived r ≠ p) (reactions c)) (heap s).

(** What [settle] on another promise keeps of the state, seen from [p]. *)
Definition framed (p : promise) (s s' : state) : Prop :=
  heap s' !! p = heap s !! p
  ∧ avoids p s'
  ∧ (length (heap s) ≤ length (heap s'))%nat
  ∧ evalScript_calls s' = evalScript_calls s.

(** The reactions and the host's callbacks refer to allocated promises. *)
Definition well_formed (s : state) : Prop :=
  Forall (λ c, Forall (λ r, derived r < length (heap s))%nat (reactions c)) (heap s)
  ∧ Forall (λ call, match call.2 with Resolve p => (p < length (heap s))%nat end)
           (evalScript_calls s).

Definition initial : state := State [] [] [].

(** [p] is the promise of the [k]-th call of [evalScript]: it is allocated,
    no reaction settles it, and call [k] is the one whose callback is its
    [resolve] function. *)
Definition tracked (p : promise) (k : nat) (s : state) : Prop :=
  (p < length (heap s))%nat
  ∧ avoids p s
  ∧ (∃ script, evalScript_calls s !! k = Some (script, Resolve p))
  ∧ (∀ i script, evalScript_calls s !! i = Some (script, Resolve p) → i = k).

(** The status of such a promise after an action: the answer to call [k]
    fulfils it if it is pending, and nothing else changes it. *)
Definition status_after (k : nat) (a : action) (st : option settlement) : option settlement :=
  match st, a with
  | Some Pending, HostAnswers i result =>
      if decide (i = k) then Some (Fulfilled (VString result)) else Some Pending
  | _, _ => st
  end.

(** No reaction of a cell outside [P] settles a promise of [P]. *)
Definition guarded (P : promise → Prop) (s : state) : Prop :=
  ∀ i c, heap s !! i = Some c → ¬ P i → Forall (λ r, ¬ P (derived r)) (reactions c).

(** What settling a promise outside [P] keeps of the state. *)
Definition kept (P : promise → Prop) (s s' : state) : Prop :=
  (∀ d, P d → heap s' !! d = heap s !! d)
  ∧ guarded P s'
  ∧ length (heap s') = length (heap s)
  ∧ evalScript_calls s' = evalScript_calls s.

(** [q] is the promise [then] made of [p], the promise of the [k]-th call
    of [evalScript], with the callback [f]: [p] is pending and its first
    reaction runs [f] and settles [q]; nothing else settles [q], which is
    pending. *)
Definition chained (p q : promise) (f : then_callback) (k : nat) (s : state) : Prop :=
  tracked p k s
  ∧ (q < length (heap s))%nat
  ∧ p ≠ q
  ∧ (∃ rs, heap s !! p = Some (Cell Pending (Reaction f q :: rs))
           ∧ Forall (λ r, derived r ≠ q) rs)
  ∧ (∀ i c, heap s !! i = Some c → i ≠ p → Forall (λ r, derived r ≠ q) (reactions c))
  ∧ status_of q s = Some Pending
  ∧ (∀ i script, evalScript_calls s !! i ≠ Some (script, Resolve q)).

(** A callback that returns the host's result as it got it. *)
Definition passes_through (f : then_callback) : Prop :=
  ∀ result c, (f (VString result) c).2 = Normal (VString result).

(** Every reaction settles a promise allocated after its own. *)
Definition forward (s : state) : Prop :=
  ∀ i c, heap s !! i = Some c → Forall (λ r, (i < derived r)%nat) (reactions c).

(** ** Names for the parts of a handler *)

(** The callback every handler gives to [then], up to the label it logs. *)
Definition log_result (label : jsstr) : then_callback := λ result,
  t ← lift (string_plus label result);
  log_warn [VString t];;
  mret result.

(** The first line of every handler. *)
Definition called (route : string) (data : value) (s : state) : state :=
  set_console (console s ++ [[VString (lit "Server called client route " ++ [dquote]
                                         ++ lit route ++ [dquote] ++ lit ":"); data]]) s.

(** The state after [runEvalScript(script).then(f)]: one more call of
    [evalScript], and two more promises, the one the host resolves and the
    one [then] returns. *)
Definition submitted (script : jsstr) (f : then_callback) (s : state) : state :=
  State (console s)
        (evalScript_calls s ++ [(script, Resolve (length (heap s)))])
        (heap s ++ [Cell Pending [Reaction f (S (length (heap s)))]; Cell Pending []]).

Definition settlement_of (r : completion value) : settlement :=
  match r with
  | Normal v => Fulfilled v
  | Throw e => Rejected e
  end.

(** The script text [route_saveAs] renders, or the exception on the way. *)
Definition saveAs_script (data : value) : completion jsstr :=
  image_path ← Get data (lit "image_path");
  escapedPath ← EscapeStringForJSX image_path;
  Normal (lit "saveAs('") +s Normal escapedPath +s str "', " +s
  str "'" +s Get data (lit "ext") +s str "', " +s
  Get data (lit "as_copy") +s str ")".

(** The script text [route_set_visible] renders. *)
Definition set_visible_script (data : value) : completion jsstr :=
  Normal (lit "setVisible(") +s Get data (lit "layer_id") +s str ", "
  +s Get data (lit "visibility") +s str ")".

(** A handler has invoked the host once: [s'] has one call of [evalScript]
    more than [s]; whatever the program and the host do next, [q] is pending
    as long as the host has not answered that call, and its answer fulfils
    [q] with the answer, for good. *)
Definition invoked_once (script : jsstr) (s s' : state) (q : promise) : Prop :=
  (∃ p, evalScript_calls s' = evalScript_calls s ++ [(script, Resolve p)])
  ∧ ∀ acts,
      forallb (λ a, negb (is_answer_to (length (evalScript_calls s)) a)) acts = true →
      status_of q (perform_all acts s') = Some Pending
      ∧ ∀ result acts',
          status_of q (perform_all
                         (acts ++ HostAnswers (length (evalScript_calls s)) result :: acts')
                         s')
          = Some (Fulfilled (VString result)).

(** A handler that returns has invoked the host once; one that throws has
    not invoked it. *)
Definition at_most_once (h : handler) (data : value) (s : state) : Prop :=
  match h data s with
  | (s', Normal q) => ∃ script, invoked_once script s s' q
  | (s', Throw e) => evalScript_calls s' = evalScript_calls s ∧ heap s' = heap s
  end.

(** ** More names for what the handlers are given *)

(** The code units [EscapeStringForJSX] puts a backslash before. *)
Definition is_special (c : code_unit) : bool :=
  bool_decide (c = backslash) || bool_decide (c = quote) || bool_decide (c = dquote).

(** How many of them a string holds. *)
Fixpoint specials (s : jsstr) : nat :=
  match s with
  | [] => 0
  | c :: rest => (if is_special c then 1 else 0) + specials rest
  end.

(** The values the [+] operator converts without calling a method. *)
Definition primitive (v : value) : bool :=
  match v with
  | VArray _ | VObject _ => false
  | _ => true
  end.

(** Neither of the two calls has been answered. *)
Definition unanswered (k1 k2 : nat) (acts : list action) : bool :=
  forallb (λ a, negb (is_answer_to k1 a) && negb (is_answer_to k2 a)) acts.

(** ** restart_extension *)

(** What [restart_extension] acts on: the console and the address of the
    page. *)
Record page : Type := Page {
  page_console : list log_entry;
  href : jsstr
}.

(** [try { body } catch (e) { handler }] *)
Definition try_catch {S A} (body : Eff S A) (handler : error → Eff S A) : Eff S A := λ s,
  match body s with
  | (s', Throw e) => handler e s'
  | (s', Normal a) => (s', Normal a)
  end.

Definition page_log_warn (args : list value) : Eff page unit := λ w,
  (Page (page_console w ++ [args]) (href w), Normal ()).

(** [window.location.href = url] *)
Definition set_href (url : jsstr) : Eff page unit := λ w,
  (Page (page_console w) url, Normal ()).

(** [process.removeAllListeners()] belongs to the runtime: it is taken as it
    comes, whatever it does to the page and whether it returns or throws. *)
Definition restart_extension (removeAllListeners : Eff page unit) : Eff page unit :=
  page_log_warn [VString (lit "restarting!")];;
  try_catch (removeAllListeners;; set_href (lit "./index.html"))
            (λ e, set_href (lit "./index.html")).

(** * Properties *)

(** ** EscapeStringForJSX *)

Lemma replace_all_app c by_ s t :
  replace_all c by_ (s ++ t) = replace_all c by_ s ++ replace_all c by_ t.
Proof. unfold replace_all. apply flat_map_app. Qed.

Lemma escape_each_cons c s : escape_each (c :: s) = escape_unit c ++ escape_each s.
Proof. reflexivity. Qed.

(** The three passes, in the order of the program, amount to one pass that
    escapes each code unit on its own. *)
Lemma three_passes s :
  replace_all dquote [backslash; dquote]
    (replace_all quote (lit "\'") (replace_all backslash (lit "\\") s))
  = escape_each s.
Proof.
  induction s as [|c s IH]; [reflexivity|].
  change (replace_all backslash (lit "\\") (c :: s))
    with ((if decide (c = backslash) then lit "\\" else [c])
            ++ replace_all backslash (lit "\\") s).
  rewrite !replace_all_app, IH, escape_each_cons. f_equal.
  unfold escape_unit.
  destruct (decide (c = backslash)) as [->|Hb]; [reflexivity|].
  destruct (decide (c = quote)) as [->|Hq]; [reflexivity|].
  destruct (decide (c = dquote)) as [->|Hd]; [reflexivity|].
  unfold replace_all. cbn. rewrite (decide_False (P := c = quote)) by done.
  cbn. by rewrite (decide_False (P := c = dquote)).
Qed.

Lemma EscapeStringForJSX_string s :
  EscapeStringForJSX (VString s) = Normal (VString (escape_each s)).
Proof. cbn. by rewrite three_passes. Qed.

Lemma EscapeStringForJSX_not_string v :
  (∀ s, v ≠ VString s) → EscapeStringForJSX v = Throw TypeError.
Proof. intros Hv. destruct v; try reflexivity. by destruct (Hv s). Qed.

(** C2: on every string, EscapeStringForJSX returns the string in which each
    backslash has become two backslashes, each single quote a backslash and
    the quote, each double quote a backslash and the double quote, and every
    other code unit is kept; the result is that of replacing the backslashes
    first, then the single quotes, then the double quotes. *)
Theorem EscapeStringForJSX_escapes_each_unit (s : jsstr) :
  EscapeStringForJSX (VString s) = Normal (VString (flat_map escape_unit s))
  ∧ flat_map escape_unit s
    = replace_all dquote [backslash; dquote]
        (replace_all quote [backslash; quote]
           (replace_all backslash [backslash; backslash] s))
  ∧ escape_unit backslash = [backslash; backslash]
  ∧ escape_unit quote = [backslash; quote]
  ∧ escape_unit dquote = [backslash; dquote]
  ∧ ∀ c, c ≠ backslash → c ≠ quote → c ≠ dquote → escape_unit c = [c].
Proof.
  split; [apply EscapeStringForJSX_string|].
  split; [symmetry; apply three_passes|].
  repeat split. intros c Hb Hq Hd. unfold escape_unit.
  by rewrite !decide_False.
Qed.

(** ** Reading the escaped text back *)

Lemma read_escaped_unit c body :
  is_line_terminator c = false →
  read_single_quoted InBody (escape_unit c ++ body)
  = prepend c (read_single_quoted InBody body).
Proof.
  intros Hc. unfold escape_unit.
  destruct (decide (c = backslash)) as [->|Hb]; [reflexivity|].
  destruct (decide (c = quote)) as [->|Hq]; [reflexivity|].
  destruct (decide (c = dquote)) as [->|Hd]; [reflexivity|].
  cbn. by rewrite !decide_False, Hc.
Qed.

Lemma read_escaped_line_terminator c body :
  is_line_terminator c = true →
  read_single_quoted InBody (escape_unit c ++ body) = None.
Proof.
  intros Hc. unfold escape_unit.
  destruct (decide (c = backslash)) as [->|Hb]; [done|].
  destruct (decide (c = quote)) as [->|Hq]; [done|].
  destruct (decide (c = dquote)) as [->|Hd]; [done|].
  cbn. by rewrite !decide_False, Hc.
Qed.

Lemma read_escaped s rest :
  has_line_terminator s = false →
  read_single_quoted InBody (escape_each s ++ quote :: rest) = Some (s, rest).
Proof.
  induction s as [|c s IH]; [reflexivity|].
  cbn [has_line_terminator existsb]. intros [Hc Hs]%orb_false_iff.
  rewrite escape_each_cons, <- app_assoc, read_escaped_unit by done.
  unfold has_line_terminator in IH. by rewrite IH.
Qed.

(** With a line terminator in it the escaped text is no literal at all. *)
Lemma read_escaped_broken s rest :
  has_line_terminator s = true →
  read_single_quoted InBody (escape_each s ++ rest) = None.
Proof.
  induction s as [|c s IH]; [done|].
  cbn [has_line_terminator existsb]. intros H.
  rewrite escape_each_cons, <- app_assoc.
  destruct (is_line_terminator c) eqn:Hc.
  - by apply read_escaped_line_terminator.
  - rewrite read_escaped_unit by done. unfold has_line_terminator in IH.
    by rewrite IH.
Qed.

(** C3, as the code has it: for every string s without a line terminator
    (LF, CR, U+2028, U+2029), the host reads EscapeStringForJSX(s) written
    between single quotes as the literal of value s; for every string s the
    escaped text never closes the quote early: the literal ends at the quote
    written after it, whatever script text follows, or, when s holds a line
    terminator, the script is a syntax error. *)
Theorem EscapeStringForJSX_round_trip (s rest : jsstr) :
  ∃ e, EscapeStringForJSX (VString s) = Normal (VString e)
       ∧ read_single_quoted InBody (e ++ quote :: rest)
         = (if has_line_terminator s then None else Some (s, rest))
       ∧ literal_value e = (if has_line_terminator s then None else Some s).
Proof.
  exists (escape_each s). split; [apply EscapeStringForJSX_string|].
  unfold literal_value. destruct (has_line_terminator s) eqn:Hs.
  - by rewrite !read_escaped_broken.
  - by rewrite !read_escaped.
Qed.

(** C3, as stated, fails on a line feed: the escaped text is the line feed
    itself, and a single-quoted literal cannot hold one. *)
Lemma EscapeStringForJSX_line_feed_not_read_back :
  EscapeStringForJSX (VString [10]) = Normal (VString [10])
  ∧ literal_value [10] = None
  ∧ ¬ (∀ s e, EscapeStringForJSX (VString s) = Normal (VString e) →
              literal_value e = Some s).
Proof.
  split; [reflexivity|]. split; [reflexivity|].
  intros H. specialize (H [10] [10] eq_refl). discriminate H.
Qed.

(** ** The endpoint address *)

Lemma https_paren_is_no_protocol : is_protocol (lit "https):") = false.
Proof. reflexivity. Qed.

(** C10: whatever window.location is, WSRPC is constructed with the address
    ws://localhost:8099/ws/ (and the timeout 5000); and the address computed
    first never starts with wss://, since a protocol is never the text
    https): the program compares it with. *)
Theorem WSRPC_url_is_fixed (loc : location) :
  WSRPC_arguments loc = (lit "ws://localhost:8099/ws/", 5000%Z)
  ∧ (is_protocol (protocol loc) = true →
     url_from_location loc = lit "ws://" ++ host loc ++ lit "/ws/").
Proof.
  split; [reflexivity|].
  intros Hp. unfold url_from_location.
  destruct (decide (protocol loc = lit "https):")) as [Heq|]; [|reflexivity].
  rewrite Heq, https_paren_is_no_protocol in Hp. discriminate Hp.
Qed.

Lemma WSRPC_url_is_fixed_witness :
  is_protocol (lit "https:") = true
  ∧ WSRPC_arguments (Location (lit "https:") (lit "example.org"))
    = (lit "ws://localhost:8099/ws/", 5000%Z)
  ∧ url_from_location (Location (lit "https:") (lit "example.org"))
    = lit "ws://example.org/ws/".
Proof.
  split; [reflexivity|].
  destruct (WSRPC_url_is_fixed (Location (lit "https:") (lit "example.org")))
    as [Hfixed Hfirst].
  split; [exact Hfixed|]. apply Hfirst. reflexivity.
Defined.

(** ** Submitting a script and chaining on its promise *)

Lemma runEvalScript_then script f s :
  (p ← runEvalScript script; then_ p f) s
  = (submitted script f s, Normal (S (length (heap s)))).
Proof.
  unfold runEvalScript, new_promise, evalScript, then_, submitted, set_heap.
  unfold mbind, mret, Eff_bind, Eff_ret. cbn. rewrite lookup_app_r, Nat.sub_diag by lia. cbn.
  rewrite length_app. cbn.
  replace (length (heap s) + 1)%nat with (S (length (heap s))) by lia.
  f_equal. f_equal.
  rewrite <- app_assoc. cbn.
  rewrite insert_app_r_alt, Nat.sub_diag by lia. reflexivity.
Qed.

(** When the host answers that call, the first promise is fulfilled with
    the answer, the callback runs on it, and what the callback returns or
    throws settles the second. *)
Lemma host_answers_submitted script f s result :
  host_answers (length (evalScript_calls s)) result (submitted script f s)
  = State (f (VString result) (console s)).1
          (evalScript_calls s ++ [(script, Resolve (length (heap s)))])
          (heap s ++ [Cell (Fulfilled (VString result)) [];
                      Cell (settlement_of (f (VString result) (console s)).2) []]).
Proof.
  unfold host_answers, submitted. cbn.
  rewrite lookup_app_r, Nat.sub_diag by lia. cbn.
  unfold settle_promise. cbn. rewrite length_app. cbn.
  replace (length (heap s) + 2)%nat with (S (S (length (heap s)))) by lia.
  cbn [settle]. cbn.
  rewrite lookup_app_r, Nat.sub_diag by lia. cbn.
  destruct (f (VString result) (console s)) as [c' [v'|e]]; cbn.
  all: rewrite insert_app_r_alt, Nat.sub_diag by lia; cbn.
  all: rewrite lookup_app_r by lia.
  all: replace (S (length (heap s)) - length (heap s))%nat with 1%nat by lia; cbn.
  all: unfold set_heap, set_console; cbn.
  all: rewrite insert_app_r_alt by lia.
  all: replace (S (length (heap s)) - length (heap s))%nat with 1%nat by lia.
  all: reflexivity.
Qed.

(** ** Settling leaves the other promises alone *)

Lemma run_reaction_heap r o s :
  heap (run_reaction r o s).1 = heap s
  ∧ evalScript_calls (run_reaction r o s).1 = evalScript_calls s.
Proof.
  unfold run_reaction. destruct o as [|v|e]; [done| |done].
  by destruct (on_fulfilled r v (console s)) as [c [v'|e]].
Qed.

Lemma framed_refl p s : avoids p s → framed p s s.
Proof. by intros H. Qed.

Lemma framed_trans p s1 s2 s3 : framed p s1 s2 → framed p s2 s3 → framed p s1 s3.
Proof.
  intros (H1 & _ & H2 & H3) (H4 & H5 & H6 & H7).
  repeat split; [congruence|done|lia|congruence].
Qed.

Lemma avoids_insert p i c s :
  avoids p s → Forall (λ r, derived r ≠ p) (reactions c) →
  avoids p (set_heap (<[i := c]> (heap s)) s).
Proof. intros Hs Hc. unfold avoids. cbn. by apply Forall_insert. Qed.

Lemma avoids_reactions p i c s :
  avoids p s → heap s !! i = Some c → Forall (λ r, derived r ≠ p) (reactions c).
Proof. intros Hs Hi. exact (Forall_lookup_1 _ (heap s) i c Hs Hi). Qed.

Lemma settle_reactions_framed p fuel o rs :
  (∀ p0 o s, p0 ≠ p → avoids p s → framed p s (settle fuel p0 o s)) →
  ∀ s, Forall (λ r, derived r ≠ p) rs → avoids p s →
  framed p s (foldl (λ s r, let '(s', o') := run_reaction r o s in
                            settle fuel (derived r) o' s') s rs).
Proof.
  intros IH. induction rs as [|r rs IHrs]; intros s Hrs Hs; [by apply framed_refl|].
  apply Forall_cons in Hrs as [Hr Hrs]. cbn.
  destruct (run_reaction r o s) as [s' o'] eqn:Hrun.
  pose proof (run_reaction_heap r o s) as [Hh Hc]. rewrite Hrun in Hh, Hc. cbn in Hh, Hc.
  assert (framed p s s') as Hss'.
  { unfold framed, avoids. rewrite Hh, Hc. by repeat split. }
  assert (framed p s' (settle fuel (derived r) o' s')) as Hstep.
  { apply IH; [done|]. apply Hss'. }
  eapply framed_trans; [exact Hss'|].
  eapply framed_trans; [exact Hstep|].
  apply IHrs; [done|]. apply Hstep.
Qed.

Lemma settle_framed p fuel :
  ∀ p0 o s, p0 ≠ p → avoids p s → framed p s (settle fuel p0 o s).
Proof.
  induction fuel as [|fuel IH]; intros p0 o s Hne Hs; [by apply framed_refl|].
  cbn [settle].
  destruct (heap s !! p0) as [[[| |] rs]|] eqn:Hp0; try by apply framed_refl.
  pose proof (avoids_reactions _ _ _ _ Hs Hp0) as Hrs. cbn in Hrs.
  eapply framed_trans; [|apply settle_reactions_framed; [exact IH|exact Hrs|]].
  - unfold framed. cbn. rewrite list_lookup_insert_ne, length_insert by done.
    repeat split; [|done]. by apply avoids_insert.
  - by apply avoids_insert.
Qed.

(** Settling a pending promise: it takes the settlement, for good. *)
Lemma settle_pending p fuel o rs s :
  heap s !! p = Some (Cell Pending rs) → avoids p s →
  heap (settle (S fuel) p o s) !! p = Some (Cell o [])
  ∧ avoids p (settle (S fuel) p o s)
  ∧ (length (heap s) ≤ length (heap (settle (S fuel) p o s)))%nat
  ∧ evalScript_calls (settle (S fuel) p o s) = evalScript_calls s.
Proof.
  intros Hp Hs. cbn [settle]. rewrite Hp.
  pose proof (avoids_reactions _ _ _ _ Hs Hp) as Hrs. cbn in Hrs.
  assert (avoids p (set_heap (<[p := Cell o []]> (heap s)) s)) as Hs1
    by by apply avoids_insert.
  destruct (settle_reactions_framed p fuel o rs (settle_framed p fuel) _ Hrs Hs1)
    as (H1 & H2 & H3 & H4).
  cbn in H3. rewrite length_insert in H3.
  rewrite H1, H4. cbn.
  repeat split; [|done..]. apply list_lookup_insert_eq. by eapply lookup_lt_Some.
Qed.

Lemma settle_settled p fuel o st rs s :
  heap s !! p = Some (Cell st rs) → st ≠ Pending → settle fuel p o s = s.
Proof.
  intros Hp Hst. destruct fuel; [done|]. cbn [settle]. rewrite Hp.
  by destruct st.
Qed.

(** ** The promise of a call of evalScript *)

Lemma framed_tracked p k s s' :
  framed p s s' → tracked p k s →
  tracked p k s' ∧ status_of p s' = status_of p s.
Proof.
  intros (H1 & H2 & H3 & H4) (T1 & T2 & T3 & T4). unfold tracked, status_of.
  rewrite H1, H4. repeat split; [lia|done..].
Qed.

Lemma host_answers_tracked p k s i result :
  tracked p k s →
  tracked p k (host_answers i result s)
  ∧ status_of p (host_answers i result s)
    = status_after k (HostAnswers i result) (status_of p s).
Proof.
  intros HT. pose proof HT as (T1 & T2 & [sc T3] & T4).
  destruct (lookup_lt_is_Some_2 _ _ T1) as [[st rs] Hp].
  unfold host_answers, status_after, status_of. rewrite Hp. cbn.
  destruct (evalScript_calls s !! i) as [[sc' [p']]|] eqn:Hi.
  2: { split; [done|]. rewrite Hp. cbn.
       destruct st; try done. case_decide; [|done]. congruence. }
  destruct (decide (p' = p)) as [->|Hne].
  - rewrite (T4 _ _ Hi), decide_True by done.
    assert (st = Pending ∨ st ≠ Pending) as [->|Hst]
      by (destruct st; [by left|by right..]).
    + unfold settle_promise.
      destruct (length (heap s)) as [|fuel] eqn:Hlen; [lia|].
      destruct (settle_pending p fuel (Fulfilled (VString result)) rs s Hp T2)
        as (H1 & H2 & H3 & H4).
      split; [|by rewrite H1].
      unfold tracked. rewrite H4. repeat split; eauto. lia.
    + unfold settle_promise. rewrite (settle_settled _ _ _ _ _ _ Hp Hst), Hp.
      split; [done|]. by destruct st.
  - destruct (framed_tracked p k s (settle_promise p' (Fulfilled (VString result)) s))
      as [H1 H2]; [by apply settle_framed|done|].
    split; [done|]. unfold status_of in H2. rewrite H2, Hp. cbn.
    destruct st; try done. case_decide; [|done]. subst i. congruence.
Qed.

Lemma runEvalScript_tracked p k s script :
  tracked p k s →
  tracked p k (runEvalScript script s).1
  ∧ status_of p (runEvalScript script s).1 = status_of p s.
Proof.
  intros (T1 & T2 & [sc T3] & T4).
  unfold runEvalScript, new_promise, evalScript, tracked, status_of, avoids.
  unfold mbind, mret, Eff_bind, Eff_ret. cbn.
  rewrite length_app, (lookup_app_l (heap s)) by done. split; [|done].
  split; [lia|]. split.
  { apply Forall_app. split; [done|]. by repeat constructor. }
  split.
  - exists sc. apply lookup_app_l_Some, T3.
  - intros i script' [Hi|[Hlen Hi]]%lookup_app_Some; [by eauto|].
    apply list_lookup_singleton_Some in Hi as [_ Hi]. injection Hi as _ Hp. lia.
Qed.

Lemma framed_allocate p s :
  (p < length (heap s))%nat → avoids p s →
  framed p s (set_heap (heap s ++ [Cell Pending []]) s).
Proof.
  intros Hp Hs. unfold framed, avoids. cbn.
  rewrite lookup_app_l, length_app by done.
  repeat split; [|lia]. apply Forall_app. split; [done|]. by repeat constructor.
Qed.

Lemma then_tracked p k s p' f :
  tracked p k s →
  tracked p k (then_ p' f s).1
  ∧ status_of p (then_ p' f s).1 = status_of p s.
Proof.
  intros HT. pose proof HT as (T1 & T2 & T3 & T4). unfold then_.
  pose proof (framed_allocate p s T1 T2) as Hs1.
  destruct (heap s !! p') as [[st rs]|] eqn:Hp'; [|done].
  assert (st = Pending ∨ st ≠ Pending) as [->|Hst]
    by (destruct st; [by left|by right..]).
  - cbn. split.
    + unfold tracked, avoids. cbn. rewrite length_insert, length_app.
      repeat split; [lia| |done..].
      apply Forall_insert; [apply Hs1|]. cbn. apply Forall_app. split.
      * exact (avoids_reactions _ _ _ _ T2 Hp').
      * repeat constructor. cbn. lia.
    + unfold status_of. cbn. destruct (decide (p' = p)) as [->|Hne].
      * rewrite list_lookup_insert_eq, Hp'; [done|]. rewrite length_app. lia.
      * by rewrite list_lookup_insert_ne, lookup_app_l.
  - assert (framed p s (then_ p' f s).1) as Hf.
    { unfold then_. rewrite Hp'.
      replace (match st with Pending => _ | _ => _ end)
        with (let '(s2, o') := run_reaction (Reaction f (length (heap s))) st
                                 (set_heap (heap s ++ [Cell Pending []]) s) in
              (settle_promise (length (heap s)) o' s2, Normal (length (heap s))))
        by by destruct st.
      pose proof (run_reaction_heap (Reaction f (length (heap s))) st
                    (set_heap (heap s ++ [Cell Pending []]) s)) as [Hh Hc].
      destruct (run_reaction _ st _) as [s2 o']. cbn in Hh, Hc |- *.
      assert (framed p (set_heap (heap s ++ [Cell Pending []]) s) s2) as Hs2.
      { unfold framed, avoids. rewrite Hh, Hc. cbn. repeat split; [|done]. apply Hs1. }
      eapply framed_trans; [exact Hs1|]. eapply framed_trans; [exact Hs2|].
      apply settle_framed; [lia|apply Hs2]. }
    unfold then_ in Hf. rewrite Hp' in Hf.
    by apply framed_tracked.
Qed.

Lemma perform_tracked p k s a :
  tracked p k s →
  tracked p k (perform s a)
  ∧ status_of p (perform s a) = status_after k a (status_of p s).
Proof.
  intros HT. destruct a as [i result|args|script|p' f].
  - by apply host_answers_tracked.
  - split; [exact HT|].
    change (status_of p (perform s (LogWarn args))) with (status_of p s).
    cbn. by destruct (status_of p s) as [[]|].
  - destruct (runEvalScript_tracked p k s script HT) as [H1 H2].
    split; [done|]. cbn [perform]. rewrite H2. cbn. by destruct (status_of p s) as [[]|].
  - destruct (then_tracked p k s p' f HT) as [H1 H2].
    split; [done|]. cbn [perform]. rewrite H2. cbn. by destruct (status_of p s) as [[]|].
Qed.

(** ** runEvalScript *)

Lemma perform_all_tracked p k acts s :
  tracked p k s → tracked p k (perform_all acts s).
Proof.
  revert s. induction acts as [|a acts IH]; intros s HT; [done|].
  apply IH. by apply perform_tracked.
Qed.

Lemma perform_all_app acts acts' s :
  perform_all (acts ++ acts') s = perform_all acts' (perform_all acts s).
Proof. apply foldl_app. Qed.

Lemma perform_all_pending p k acts s :
  tracked p k s → status_of p s = Some Pending →
  forallb (λ a, negb (is_answer_to k a)) acts = true →
  status_of p (perform_all acts s) = Some Pending.
Proof.
  revert s. induction acts as [|a acts IH]; intros s HT Hp Hacts; [done|].
  cbn in Hacts. apply andb_true_iff in Hacts as [Ha Hacts].
  destruct (perform_tracked p k s a HT) as [HT' Hst].
  apply IH; [done| |done]. rewrite Hst, Hp.
  destruct a as [i result| | |]; try done. cbn in Ha |- *.
  rewrite decide_False; [done|]. intros ->. by rewrite bool_decide_eq_true_2 in Ha.
Qed.

Lemma perform_all_fulfilled p k acts s v :
  tracked p k s → status_of p s = Some (Fulfilled v) →
  status_of p (perform_all acts s) = Some (Fulfilled v).
Proof.
  revert s. induction acts as [|a acts IH]; intros s HT Hp; [done|].
  destruct (perform_tracked p k s a HT) as [HT' Hst].
  apply IH; [done|]. rewrite Hst, Hp. by destruct a.
Qed.

Lemma perform_all_not_rejected p k acts s :
  tracked p k s → (∀ e, status_of p s ≠ Some (Rejected e)) →
  ∀ e, status_of p (perform_all acts s) ≠ Some (Rejected e).
Proof.
  revert s. induction acts as [|a acts IH]; intros s HT Hp; [done|].
  destruct (perform_tracked p k s a HT) as [HT' Hst].
  apply IH; [done|]. intros e. rewrite Hst.
  destruct (status_of p s) as [[|v|e']|] eqn:Hs;
    [| |by destruct (Hp e')|]; destruct a; cbn; try case_decide; done.
Qed.

Lemma runEvalScript_fresh_tracked script s :
  well_formed s →
  tracked (length (heap s)) (length (evalScript_calls s)) (runEvalScript script s).1
  ∧ status_of (length (heap s)) (runEvalScript script s).1 = Some Pending.
Proof.
  intros [Hr Hc]. unfold tracked, avoids, status_of.
  unfold runEvalScript, new_promise, evalScript, mbind, mret, Eff_bind, Eff_ret. cbn.
  rewrite length_app, !lookup_app_r, !Nat.sub_diag by lia. cbn.
  split; [|done]. split; [lia|]. split.
  { apply Forall_app. split; [|by repeat constructor].
    eapply Forall_impl; [exact Hr|]. intros c Hcr.
    eapply Forall_impl; [exact Hcr|]. cbn. lia. }
  split; [by eexists|].
  intros i script' [Hi|[Hlen Hi]]%lookup_app_Some.
  - apply (Forall_lookup_1 _ _ _ _ Hc) in Hi. cbn in Hi. lia.
  - apply list_lookup_singleton_Some in Hi as [Hi _]. lia.
Qed.

(** C8: the promise of runEvalScript(script) is never rejected, whatever the
    program and the host do afterwards; it stays pending until the host calls
    the callback of that call of evalScript, is fulfilled with the value the
    host passes then, and keeps that value. *)
Theorem runEvalScript_never_rejects (script : jsstr) (s : state) :
  well_formed s →
  ∃ s1 p,
    runEvalScript script s = (s1, Normal p)
    ∧ evalScript_calls s1 = evalScript_calls s ++ [(script, Resolve p)]
    ∧ (∀ acts e, status_of p (perform_all acts s1) ≠ Some (Rejected e))
    ∧ (∀ acts, forallb (λ a, negb (is_answer_to (length (evalScript_calls s)) a)) acts = true →
         status_of p (perform_all acts s1) = Some Pending
         ∧ ∀ result acts',
             status_of p (perform_all
                            (acts ++ HostAnswers (length (evalScript_calls s)) result :: acts')
                            s1)
             = Some (Fulfilled (VString result))).
Proof.
  intros Hwf. destruct (runEvalScript_fresh_tracked script s Hwf) as [HT Hp].
  eexists _, _. split; [reflexivity|]. split; [reflexivity|].
  change (runEvalScript script s).1 with
    (State (console s) (evalScript_calls s ++ [(script, Resolve (length (heap s)))])
           (heap s ++ [Cell Pending []])) in HT, Hp.
  split.
  { intros acts. apply (perform_all_not_rejected _ _ _ _ HT). intros e. by rewrite Hp. }
  intros acts Hacts.
  pose proof (perform_all_pending _ _ acts _ HT Hp Hacts) as Hpending.
  split; [exact Hpending|]. intros result acts'.
  rewrite perform_all_app.
  pose proof (perform_all_tracked _ _ acts _ HT) as HT'.
  change (perform_all (?a :: acts') ?s0) with (perform_all acts' (perform s0 a)).
  destruct (perform_tracked _ _ _ (HostAnswers (length (evalScript_calls s)) result) HT')
    as [HT'' Hst].
  apply (perform_all_fulfilled _ _ _ _ _ HT''). rewrite Hst, Hpending. cbn.
  by rewrite decide_True.
Qed.

Lemma well_formed_initial : well_formed initial.
Proof. split; constructor. Qed.

Lemma runEvalScript_never_rejects_witness :
  well_formed initial
  ∧ ∃ s1 p,
      runEvalScript (lit "setVisible(6, true)") initial = (s1, Normal p)
      ∧ evalScript_calls s1
        = evalScript_calls initial ++ [(lit "setVisible(6, true)", Resolve p)]
      ∧ (∀ acts e, status_of p (perform_all acts s1) ≠ Some (Rejected e))
      ∧ (∀ acts,
           forallb (λ a, negb (is_answer_to (length (evalScript_calls initial)) a)) acts
           = true →
           status_of p (perform_all acts s1) = Some Pending
           ∧ ∀ result acts',
               status_of p (perform_all
                              (acts ++ HostAnswers (length (evalScript_calls initial)) result
                                    :: acts') s1)
               = Some (Fulfilled (VString result))).
Proof.
  split; [exact well_formed_initial|].
  exact (runEvalScript_never_rejects (lit "setVisible(6, true)") initial
           well_formed_initial).
Defined.

(** ** Settling outside a set of promises *)

Lemma kept_refl P s : guarded P s → kept P s s.
Proof. by intros H. Qed.

Lemma kept_trans P s1 s2 s3 : kept P s1 s2 → kept P s2 s3 → kept P s1 s3.
Proof.
  intros (H1 & _ & H2 & H3) (H4 & H5 & H6 & H7).
  repeat split; [|done|congruence..]. intros d Hd. by rewrite H4, H1.
Qed.

Lemma settle_reactions_kept P fuel o rs :
  (∀ p0 o s, ¬ P p0 → guarded P s → kept P s (settle fuel p0 o s)) →
  ∀ s, Forall (λ r, ¬ P (derived r)) rs → guarded P s →
  kept P s (foldl (λ s r, let '(s', o') := run_reaction r o s in
                          settle fuel (derived r) o' s') s rs).
Proof.
  intros IH. induction rs as [|r rs IHrs]; intros s Hrs Hs; [by apply kept_refl|].
  apply Forall_cons in Hrs as [Hr Hrs]. cbn.
  destruct (run_reaction r o s) as [s' o'] eqn:Hrun.
  pose proof (run_reaction_heap r o s) as [Hh Hc]. rewrite Hrun in Hh, Hc. cbn in Hh, Hc.
  assert (kept P s s') as Hss'.
  { unfold kept, guarded. rewrite Hh, Hc. by repeat split. }
  assert (kept P s' (settle fuel (derived r) o' s')) as Hstep.
  { apply IH; [done|]. apply Hss'. }
  eapply kept_trans; [exact Hss'|].
  eapply kept_trans; [exact Hstep|].
  apply IHrs; [done|]. apply Hstep.
Qed.

Lemma settle_kept P fuel :
  ∀ p0 o s, ¬ P p0 → guarded P s → kept P s (settle fuel p0 o s).
Proof.
  induction fuel as [|fuel IH]; intros p0 o s Hp0 Hs; [by apply kept_refl|].
  cbn [settle].
  destruct (heap s !! p0) as [[[| |] rs]|] eqn:Hcell; try by apply kept_refl.
  pose proof (Hs _ _ Hcell Hp0) as Hrs. cbn in Hrs.
  assert (guarded P (set_heap (<[p0 := Cell o []]> (heap s)) s)) as Hs1.
  { intros i c Hi HPi. cbn in Hi. destruct (decide (i = p0)) as [->|Hne].
    - rewrite list_lookup_insert_eq in Hi by by eapply lookup_lt_Some.
      injection Hi as <-. constructor.
    - rewrite list_lookup_insert_ne in Hi by done. by eapply Hs. }
  eapply kept_trans; [|apply settle_reactions_kept; [exact IH|exact Hrs|exact Hs1]].
  unfold kept. cbn. rewrite length_insert. repeat split; [|done].
  intros d Hd. rewrite list_lookup_insert_ne; [done|]. by intros ->.
Qed.

(** A settled promise keeps its settlement. *)
Lemma settle_keeps_settled q st rs fuel :
  st ≠ Pending →
  ∀ p0 o s, heap s !! q = Some (Cell st rs) →
            heap (settle fuel p0 o s) !! q = Some (Cell st rs).
Proof.
  intros Hst. induction fuel as [|fuel IH]; intros p0 o s Hq; [done|].
  cbn [settle].
  destruct (heap s !! p0) as [[[| |] rs0]|] eqn:Hcell; try done.
  assert (p0 ≠ q) as Hne by (intros ->; rewrite Hq in Hcell; congruence).
  assert (heap (set_heap (<[p0 := Cell o []]> (heap s)) s) !! q = Some (Cell st rs)) as Hq1
    by (cbn; by rewrite list_lookup_insert_ne).
  revert Hq1. generalize (set_heap (<[p0 := Cell o []]> (heap s)) s). clear Hq Hcell.
  induction rs0 as [|r rs0 IHrs]; intros s1 Hq1; [done|]. cbn.
  pose proof (run_reaction_heap r o s1) as [Hh _].
  destruct (run_reaction r o s1) as [s' o']. cbn in Hh.
  apply IHrs, IH. by rewrite Hh.
Qed.

Lemma perform_keeps_settled q st a s :
  st ≠ Pending → status_of q s = Some st → status_of q (perform s a) = Some st.
Proof.
  intros Hst Hq. unfold status_of in *.
  destruct (heap s !! q) as [[st' rs]|] eqn:Hcell; [|done].
  injection Hq as ->.
  assert (q < length (heap s))%nat as Hlen by by eapply lookup_lt_Some.
  destruct a as [i result|args|script|p' f]; cbn [perform].
  - unfold host_answers. destruct (evalScript_calls s !! i) as [[sc [p']]|].
    + unfold settle_promise. by rewrite (settle_keeps_settled q st rs).
    + by rewrite Hcell.
  - cbn. by rewrite Hcell.
  - unfold runEvalScript, new_promise, evalScript, mbind, mret, Eff_bind, Eff_ret. cbn.
    by rewrite lookup_app_l, Hcell.
  - unfold then_. destruct (heap s !! p') as [[st' rs']|] eqn:Hp'; [|cbn; by rewrite Hcell].
    assert (st' = Pending ∨ st' ≠ Pending) as [->|Hst']
      by (destruct st'; [by left|by right..]).
    + cbn. rewrite list_lookup_insert_ne, lookup_app_l, Hcell; [done..|].
      intros ->. rewrite Hcell in Hp'. congruence.
    + replace (match st' with Pending => _ | _ => _ end)
        with (let '(s2, o') := run_reaction (Reaction f (length (heap s))) st'
                                 (set_heap (heap s ++ [Cell Pending []]) s) in
              (settle_promise (length (heap s)) o' s2, Normal (length (heap s))))
        by by destruct st'.
      pose proof (run_reaction_heap (Reaction f (length (heap s))) st'
                    (set_heap (heap s ++ [Cell Pending []]) s)) as [Hh _].
      destruct (run_reaction _ st' _) as [s2 o']. cbn in Hh |- *.
      unfold settle_promise. rewrite (settle_keeps_settled q st rs); [done..|].
      by rewrite Hh, lookup_app_l.
Qed.

Lemma perform_all_keeps_settled q st acts s :
  st ≠ Pending → status_of q s = Some st → status_of q (perform_all acts s) = Some st.
Proof.
  intros Hst. revert s. induction acts as [|a acts IH]; intros s Hq; [done|].
  by apply IH, perform_keeps_settled.
Qed.

(** ** The promise a handler returns *)

Lemma chained_guarded p q f k s :
  chained p q f k s → guarded (λ d, d = p ∨ d = q) s.
Proof.
  intros ((_ & Hp & _) & _ & _ & _ & Hq & _) i c Hi Hout.
  pose proof (avoids_reactions _ _ _ _ Hp Hi) as Hcp.
  assert (i ≠ p) as Hne by tauto. pose proof (Hq i c Hi Hne) as Hcq.
  apply Forall_forall. intros r Hr [Hd|Hd].
  - by apply (proj1 (Forall_forall _ _) Hcp r Hr).
  - by apply (proj1 (Forall_forall _ _) Hcq r Hr).
Qed.

(** The state [s'] has the cells of [p] and [q] as [s] has them, and what
    else [chained] asks of a state. *)
Lemma chained_transfer p q f k s s' :
  chained p q f k s → tracked p k s' →
  (∀ d, d = p ∨ d = q → heap s' !! d = heap s !! d) →
  guarded (λ d, d = p ∨ d = q) s' →
  (length (heap s) ≤ length (heap s'))%nat →
  (∀ i script, evalScript_calls s' !! i ≠ Some (script, Resolve q)) →
  chained p q f k s'.
Proof.
  intros (HT & Hlen & Hne & (rs & Hp & Hrs) & Hq & Hst & Hcalls) HT' Hk Hg Hl Hc.
  unfold chained, status_of in *.
  rewrite (Hk p), (Hk q) by tauto.
  split; [done|]. split; [lia|]. split; [done|].
  split; [by exists rs|]. split; [|done].
  intros i c Hi Hip. destruct (decide (i = q)) as [->|Hiq].
  - rewrite (Hk q) in Hi by tauto. by eapply Hq.
  - assert (¬ (i = p ∨ i = q)) as Hout by tauto.
    eapply Forall_impl; [exact (Hg i c Hi Hout)|]. cbn. tauto.
Qed.

Lemma chained_kept p q f k s s' :
  chained p q f k s → tracked p k s' →
  kept (λ d, d = p ∨ d = q) s s' →
  chained p q f k s'.
Proof.
  intros Hch HT' (Hk & Hg & Hl & Hc).
  apply (chained_transfer p q f k s s'); try done; [lia|].
  rewrite Hc. apply Hch.
Qed.

Lemma host_answers_chained p q f k s i result :
  chained p q f k s → i ≠ k → chained p q f k (host_answers i result s).
Proof.
  intros Hch Hik.
  destruct (host_answers_tracked p k s i result) as [HT' _]; [apply Hch|].
  revert HT'. unfold host_answers.
  destruct (evalScript_calls s !! i) as [[sc [p']]|] eqn:Hi; [|done].
  intros HT'. apply (chained_kept p q f k s); [done..|].
  apply settle_kept; [|by eapply chained_guarded].
  destruct Hch as ((_ & _ & _ & Honly) & _ & _ & _ & _ & _ & Hcalls).
  intros [->| ->]; [by apply Hik, (Honly i sc)|by apply (Hcalls i sc)].
Qed.

Lemma guarded_allocate P s :
  guarded P s → guarded P (set_heap (heap s ++ [Cell Pending []]) s).
Proof.
  intros Hs i c Hi Hout. cbn in Hi.
  apply lookup_app_Some in Hi as [Hi|[_ Hi]]; [by eapply Hs|].
  apply list_lookup_singleton_Some in Hi as [_ <-]. constructor.
Qed.

Lemma runEvalScript_runs script s :
  runEvalScript script s
  = (State (console s) (evalScript_calls s ++ [(script, Resolve (length (heap s)))])
           (heap s ++ [Cell Pending []]), Normal (length (heap s))).
Proof. reflexivity. Qed.

Lemma runEvalScript_chained p q f k s script :
  chained p q f k s → chained p q f k (runEvalScript script s).1.
Proof.
  intros Hch. destruct (runEvalScript_tracked p k s script) as [HT' _]; [apply Hch|].
  pose proof Hch as ((Hp & _) & Hq & _ & _ & _ & _ & Hcalls).
  rewrite runEvalScript_runs in HT' |- *.
  apply (chained_transfer p q f k s); [done..| | | |].
  - intros d [->| ->]; cbn; by rewrite lookup_app_l.
  - apply (guarded_allocate _ s). by eapply chained_guarded.
  - cbn. rewrite length_app. lia.
  - cbn. intros i sc [Hi|[_ Hi]]%lookup_app_Some; [by eapply Hcalls|].
    apply list_lookup_singleton_Some in Hi as [_ Hi]. injection Hi as _ Hi. lia.
Qed.

Lemma then_chained p q f k s p' g :
  chained p q f k s → chained p q f k (then_ p' g s).1.
Proof.
  intros Hch. destruct (then_tracked p k s p' g) as [HT' _]; [apply Hch|].
  pose proof Hch as ((Hp & _) & Hlen & Hne & (rs & Hcell & Hrs) & Hq & Hst & Hcalls).
  revert HT'. unfold then_.
  destruct (heap s !! p') as [[st' rs']|] eqn:Hp'; [|done].
  assert (p' < length (heap s))%nat as Hlen' by by eapply lookup_lt_Some.
  assert (st' = Pending ∨ st' ≠ Pending) as [->|Hst']
    by (destruct st'; [by left|by right..]).
  - cbn. intros HT'. unfold chained, status_of. cbn.
    rewrite length_insert, length_app.
    split; [done|]. split; [lia|]. split; [done|]. split; [|split; [|split; [|done]]].
    + destruct (decide (p' = p)) as [->|Hpp].
      * rewrite list_lookup_insert_eq by (rewrite length_app; cbn [length]; lia).
        rewrite Hcell in Hp'. injection Hp' as <-.
        eexists. split; [reflexivity|]. apply Forall_app. split; [done|].
        repeat constructor. cbn. lia.
      * rewrite list_lookup_insert_ne, lookup_app_l by done. by exists rs.
    + intros i c Hi Hip. destruct (decide (i = p')) as [->|Hne'].
      * rewrite list_lookup_insert_eq in Hi by (rewrite length_app; cbn [length]; lia).
        injection Hi as <-. cbn. apply Forall_app. split; [by apply (Hq p' _ Hp')|].
        repeat constructor. cbn. lia.
      * rewrite list_lookup_insert_ne in Hi by done.
        apply lookup_app_Some in Hi as [Hi|[_ Hi]]; [by eapply Hq|].
        apply list_lookup_singleton_Some in Hi as [_ <-]. constructor.
    + unfold status_of in Hst. destruct (decide (p' = q)) as [->|Hpq].
      * by rewrite list_lookup_insert_eq by (rewrite length_app; cbn [length]; lia).
      * by rewrite list_lookup_insert_ne, lookup_app_l.
  - replace (match st' with Pending => _ | _ => _ end)
      with (let '(s2, o') := run_reaction (Reaction g (length (heap s))) st'
                               (set_heap (heap s ++ [Cell Pending []]) s) in
            (settle_promise (length (heap s)) o' s2, Normal (length (heap s))))
      by by destruct st'.
    pose proof (run_reaction_heap (Reaction g (length (heap s))) st'
                  (set_heap (heap s ++ [Cell Pending []]) s)) as [Hh Hc].
    destruct (run_reaction _ st' _) as [s2 o']. cbn in Hh, Hc |- *. intros HT'.
    assert (guarded (λ d, d = p ∨ d = q) s2) as Hg2.
    { intros i c Hi. rewrite Hh in Hi.
      by apply (guarded_allocate _ s (chained_guarded _ _ _ _ _ Hch) i c). }
    destruct (settle_kept (λ d, d = p ∨ d = q) (length (heap s2)) (length (heap s)) o' s2)
      as (Hk & Hg & Hl & Hc'); [lia|done|].
    apply (chained_transfer p q f k s); [done..| | | |].
    + intros d Hd. unfold settle_promise. rewrite (Hk d Hd), Hh.
      apply lookup_app_l. destruct Hd as [->| ->]; lia.
    + exact Hg.
    + unfold settle_promise. rewrite Hl, Hh, length_app. lia.
    + unfold settle_promise. rewrite Hc', Hc. exact Hcalls.
Qed.

Lemma perform_chained p q f k s a :
  chained p q f k s → is_answer_to k a = false → chained p q f k (perform s a).
Proof.
  intros Hch Ha. destruct a as [i result|args|script|p' g]; cbn [perform].
  - apply host_answers_chained; [done|]. cbn in Ha. by apply bool_decide_eq_false in Ha.
  - exact Hch.
  - by apply runEvalScript_chained.
  - by apply then_chained.
Qed.

Lemma perform_all_chained p q f k acts s :
  chained p q f k s →
  forallb (λ a, negb (is_answer_to k a)) acts = true →
  chained p q f k (perform_all acts s).
Proof.
  revert s. induction acts as [|a acts IH]; intros s Hch Hacts; [done|].
  cbn in Hacts. apply andb_true_iff in Hacts as [Ha Hacts].
  apply IH; [|done]. apply perform_chained; [done|]. by apply negb_true_iff.
Qed.

Lemma settle_step fuel p o s :
  settle (S fuel) p o s
  = match heap s !! p with
    | Some (Cell Pending rs) =>
        foldl (λ s r, let '(s', o') := run_reaction r o s in
                      settle fuel (derived r) o' s')
              (set_heap (<[p := Cell o []]> (heap s)) s) rs
    | _ => s
    end.
Proof. reflexivity. Qed.

(** The answer of the host to call [k] fulfils [q] with what the callback
    returns. *)
Lemma host_answers_chained_fulfils p q f k s result :
  chained p q f k s → passes_through f →
  status_of q (host_answers k result s) = Some (Fulfilled (VString result)).
Proof.
  intros ((Hlen & Hp & [sc Hk] & _) & Hq & Hne & (rs & Hcell & Hrs) & Havoid & Hst & _) Hf.
  unfold host_answers. rewrite Hk. unfold settle_promise.
  assert (∃ fuel, length (heap s) = S (S fuel)) as [fuel ->]
    by (exists (length (heap s) - 2)%nat; lia).
  rewrite settle_step, Hcell. cbn [foldl].
  unfold run_reaction at 2. cbn [on_fulfilled derived console set_heap].
  specialize (Hf result (console s)).
  destruct (f (VString result) (console s)) as [c r]. cbn in Hf. subst r.
  set (s1 := set_console c (set_heap _ s)).
  unfold status_of in Hst.
  destruct (heap s !! q) as [[stq rsq]|] eqn:Hcellq; [|done]. injection Hst as ->.
  assert (heap s1 !! q = Some (Cell Pending rsq)) as Hq1
    by (cbn; by rewrite list_lookup_insert_ne).
  assert (avoids q s1) as Hs1.
  { unfold avoids. cbn. apply Forall_lookup. intros i ci Hi.
    destruct (decide (i = p)) as [->|Hip].
    - rewrite list_lookup_insert_eq in Hi by done. injection Hi as <-. constructor.
    - rewrite list_lookup_insert_ne in Hi by done. by eapply Havoid. }
  destruct (settle_pending q fuel (Fulfilled (VString result)) rsq s1 Hq1 Hs1)
    as (Hq2 & Hs2 & _ & _).
  destruct (settle_reactions_framed q (S fuel) (Fulfilled (VString result)) rs
              (settle_framed q (S fuel))
              (settle (S fuel) q (Fulfilled (VString result)) s1) Hrs Hs2) as (Hq3 & _).
  unfold status_of. by rewrite Hq3, Hq2.
Qed.

Lemma log_result_passes_through label : passes_through (log_result label).
Proof. intros result c. reflexivity. Qed.

Lemma submitted_chained script f s :
  well_formed s →
  chained (length (heap s)) (S (length (heap s))) f (length (evalScript_calls s))
          (submitted script f s).
Proof.
  intros [Hr Hc]. unfold chained, tracked, avoids, status_of, submitted. cbn.
  rewrite length_app. cbn [length].
  rewrite !(lookup_app_r (heap s)), !(lookup_app_r (evalScript_calls s)) by lia.
  rewrite !Nat.sub_diag.
  replace (S (length (heap s)) - length (heap s))%nat with 1%nat by lia. cbn.
  split; [|split; [lia|split; [lia|split; [|split; [|split; [done|]]]]]].
  - split; [lia|]. split.
    { apply Forall_app. split.
      - eapply Forall_impl; [exact Hr|]. intros c Hcr.
        eapply Forall_impl; [exact Hcr|]. cbn. lia.
      - repeat constructor. cbn. lia. }
    split; [by eexists|].
    intros i script' [Hi|[Hlen Hi]]%lookup_app_Some.
    + apply (Forall_lookup_1 _ _ _ _ Hc) in Hi. cbn in Hi. lia.
    + apply list_lookup_singleton_Some in Hi as [Hi _]. lia.
  - exists []. split; [done|constructor].
  - intros i c [Hi|[Hlen Hi]]%lookup_app_Some Hne.
    + eapply Forall_impl; [exact (Forall_lookup_1 _ _ _ _ Hr Hi)|]. cbn. lia.
    + destruct (i - length (heap s))%nat as [|[|n]] eqn:Hn; cbn in Hi; [lia| |done].
      injection Hi as <-. constructor.
  - intros i script' [Hi|[Hlen Hi]]%lookup_app_Some.
    + apply (Forall_lookup_1 _ _ _ _ Hc) in Hi. cbn in Hi. lia.
    + apply list_lookup_singleton_Some in Hi as [_ Hi]. injection Hi as _ Hi. lia.
Qed.

Lemma chained_settles p q f k s :
  chained p q f k s → passes_through f →
  ∀ acts, forallb (λ a, negb (is_answer_to k a)) acts = true →
    status_of q (perform_all acts s) = Some Pending
    ∧ ∀ result acts',
        status_of q (perform_all (acts ++ HostAnswers k result :: acts') s)
        = Some (Fulfilled (VString result)).
Proof.
  intros Hch Hf acts Hacts.
  pose proof (perform_all_chained p q f k acts s Hch Hacts) as Hch'.
  split; [apply Hch'|]. intros result acts'.
  rewrite perform_all_app.
  change (perform_all (?a :: acts') ?s0) with (perform_all acts' (perform s0 a)).
  apply perform_all_keeps_settled; [done|]. cbn [perform].
  by eapply host_answers_chained_fulfils.
Qed.

(** A dispatch that returns is the log line, [runEvalScript] and [then]. *)
Lemma submitted_as_actions script f route data s :
  submitted script f (called route data s)
  = perform_all [LogWarn [VString (lit "Server called client route " ++ [dquote]
                                     ++ lit route ++ [dquote] ++ lit ":"); data];
                 RunEvalScript script;
                 Then (length (heap s)) f] s.
Proof.
  pose proof (runEvalScript_then script f (called route data s)) as H.
  unfold mbind, Eff_bind in H. rewrite runEvalScript_runs in H.
  exact (eq_sym (f_equal fst H)).
Qed.

(** ** Well-formed states

    Every state the program and the host can reach is well formed. *)

Lemma well_formed_guarded s :
  well_formed s → guarded (λ d, (length (heap s) ≤ d)%nat) s.
Proof.
  intros [Hr _] i c Hi _. eapply Forall_impl; [exact (Forall_lookup_1 _ _ _ _ Hr Hi)|].
  cbn. lia.
Qed.

Lemma guarded_well_formed n s :
  length (heap s) = n →
  guarded (λ d, (n ≤ d)%nat) s →
  Forall (λ call, match call.2 with Resolve p => (p < n)%nat end) (evalScript_calls s) →
  well_formed s.
Proof.
  intros Hn Hg Hc. split; rewrite Hn; [|done].
  apply Forall_lookup. intros i c Hi.
  eapply Forall_impl; [apply (Hg i c Hi)|cbn; lia].
  apply lookup_lt_Some in Hi. lia.
Qed.

Lemma settle_promise_well_formed p o s :
  well_formed s → (p < length (heap s))%nat → well_formed (settle_promise p o s).
Proof.
  intros Hwf Hp.
  destruct (settle_kept (λ d, (length (heap s) ≤ d)%nat) (length (heap s)) p o s)
    as (_ & Hg & Hl & Hc); [lia|by apply well_formed_guarded|].
  apply (guarded_well_formed (length (heap s))); [done..|].
  unfold settle_promise. rewrite Hc. apply Hwf.
Qed.

Lemma allocate_well_formed s :
  well_formed s → well_formed (set_heap (heap s ++ [Cell Pending []]) s).
Proof.
  intros [Hr Hc]. split; cbn; rewrite length_app; cbn [length].
  - apply Forall_app. split; [|by repeat constructor].
    eapply Forall_impl; [exact Hr|]. intros c Hcr.
    eapply Forall_impl; [exact Hcr|]. cbn. lia.
  - eapply Forall_impl; [exact Hc|]. intros [sc [p]]. cbn. lia.
Qed.

Lemma perform_well_formed s a : well_formed s → well_formed (perform s a).
Proof.
  intros Hwf. destruct a as [i result|args|script|p' f]; cbn [perform].
  - unfold host_answers.
    destruct (evalScript_calls s !! i) as [[sc [p]]|] eqn:Hi; [|done].
    apply settle_promise_well_formed; [done|].
    exact (Forall_lookup_1 _ _ _ _ (proj2 Hwf) Hi).
  - exact Hwf.
  - rewrite runEvalScript_runs. cbn [fst].
    destruct (allocate_well_formed s Hwf) as [Hr Hc]. split; [exact Hr|]. cbn in *.
    apply Forall_app. split; [exact Hc|]. repeat constructor. cbn.
    rewrite length_app. cbn. lia.
  - unfold then_. destruct (heap s !! p') as [[st rs]|] eqn:Hp'; [|done].
    assert (p' < length (heap s))%nat as Hlen by by eapply lookup_lt_Some.
    pose proof (allocate_well_formed s Hwf) as Hwf1.
    assert (st = Pending ∨ st ≠ Pending) as [->|Hst]
      by (destruct st; [by left|by right..]).
    + destruct Hwf1 as [Hr Hc]. cbn in *. split; cbn; rewrite length_insert; [|done].
      apply Forall_insert; [done|]. cbn. apply Forall_app. split.
      * eapply Forall_impl; [exact (Forall_lookup_1 _ _ _ _ (proj1 Hwf) Hp')|].
        cbn. rewrite length_app. cbn. lia.
      * repeat constructor. cbn. rewrite length_app. cbn. lia.
    + replace (match st with Pending => _ | _ => _ end)
        with (let '(s2, o') := run_reaction (Reaction f (length (heap s))) st
                                 (set_heap (heap s ++ [Cell Pending []]) s) in
              (settle_promise (length (heap s)) o' s2, Normal (length (heap s))))
        by by destruct st.
      pose proof (run_reaction_heap (Reaction f (length (heap s))) st
                    (set_heap (heap s ++ [Cell Pending []]) s)) as [Hh Hc].
      destruct (run_reaction _ st _) as [s2 o']. cbn in Hh, Hc |- *.
      apply settle_promise_well_formed.
      * destruct Hwf1 as [Hr1 Hc1]. cbn in Hr1, Hc1. split; by rewrite Hh, ?Hc.
      * rewrite Hh, length_app. cbn. lia.
Qed.

Lemma reachable_well_formed acts : well_formed (perform_all acts initial).
Proof.
  unfold perform_all. induction acts as [|a acts IH] using rev_ind.
  - apply well_formed_initial.
  - rewrite foldl_app. by apply perform_well_formed.
Qed.

(** ** The fuel of [settle_promise] is enough

    A reaction settles a promise allocated after the one it is attached
    to.  In such a state the heap bounds the length of a chain of reactions,
    and fuel beyond the length of the heap changes nothing. *)

Lemma settle_forward fuel :
  ∀ p o s, forward s →
    forward (settle fuel p o s)
    ∧ length (heap (settle fuel p o s)) = length (heap s).
Proof.
  induction fuel as [|fuel IH]; intros p o s Hs; [done|].
  cbn [settle]. destruct (heap s !! p) as [[[| |] rs]|] eqn:Hcell; try done.
  assert (forward (set_heap (<[p := Cell o []]> (heap s)) s)
          ∧ length (heap (set_heap (<[p := Cell o []]> (heap s)) s)) = length (heap s))
    as Hs1.
  { split; [|cbn; by rewrite length_insert].
    intros i c Hi. cbn in Hi. destruct (decide (i = p)) as [->|Hne].
    - rewrite list_lookup_insert_eq in Hi by by eapply lookup_lt_Some.
      injection Hi as <-. constructor.
    - rewrite list_lookup_insert_ne in Hi by done. by eapply Hs. }
  revert Hs1. generalize (set_heap (<[p := Cell o []]> (heap s)) s). clear Hcell.
  induction rs as [|r rs IHrs]; intros s1 [Hf Hl]; [done|]. cbn.
  pose proof (run_reaction_heap r o s1) as [Hh _].
  destruct (run_reaction r o s1) as [s' o']. cbn in Hh.
  assert (forward s') as Hf' by (unfold forward; by rewrite Hh).
  destruct (IH (derived r) o' s' Hf') as [Hf'' Hl''].
  apply IHrs. split; [done|]. by rewrite Hl'', Hh.
Qed.

Lemma settle_more_fuel fuel :
  ∀ p o s, forward s → (length (heap s) ≤ fuel + p)%nat →
    settle (S fuel) p o s = settle fuel p o s.
Proof.
  induction fuel as [|fuel IH]; intros p o s Hs Hlen.
  - cbn. by rewrite lookup_ge_None_2 by lia.
  - rewrite (settle_step (S fuel)), (settle_step fuel).
    destruct (heap s !! p) as [[[| |] rs]|] eqn:Hcell; try done.
    pose proof (Hs p _ Hcell) as Hrs. cbn in Hrs.
    assert (forward (set_heap (<[p := Cell o []]> (heap s)) s)
            ∧ length (heap (set_heap (<[p := Cell o []]> (heap s)) s)) = length (heap s))
      as Hs1.
    { split; [|cbn; by rewrite length_insert].
      intros i c Hi. cbn in Hi. destruct (decide (i = p)) as [->|Hne].
      - rewrite list_lookup_insert_eq in Hi by by eapply lookup_lt_Some.
        injection Hi as <-. constructor.
      - rewrite list_lookup_insert_ne in Hi by done. by eapply Hs. }
    revert Hs1. generalize (set_heap (<[p := Cell o []]> (heap s)) s). clear Hcell.
    induction rs as [|r rs IHrs]; intros s1 [Hf Hl]; [done|]. cbn [foldl].
    apply Forall_cons in Hrs as [Hr Hrs].
    pose proof (run_reaction_heap r o s1) as [Hh _].
    destruct (run_reaction r o s1) as [s' o']. cbn in Hh.
    assert (forward s') as Hf' by (unfold forward; by rewrite Hh).
    rewrite IH by (rewrite ?Hh; done || lia).
    destruct (settle_forward fuel (derived r) o' s' Hf') as [Hf'' Hl''].
    apply IHrs; [done|]. split; [done|]. by rewrite Hl'', Hh.
Qed.

Lemma settle_promise_enough_fuel extra p o s :
  forward s → settle (length (heap s) + extra) p o s = settle_promise p o s.
Proof.
  intros Hs. unfold settle_promise. induction extra as [|extra IH].
  - by rewrite Nat.add_0_r.
  - rewrite Nat.add_succ_r, settle_more_fuel by (done || lia). exact IH.
Qed.

Lemma perform_forward s a : forward s → forward (perform s a).
Proof.
  intros Hs. destruct a as [i result|args|script|p' f]; cbn [perform].
  - unfold host_answers. destruct (evalScript_calls s !! i) as [[sc [p]]|]; [|done].
    by apply settle_forward.
  - exact Hs.
  - rewrite runEvalScript_runs. intros i c Hi. cbn in Hi.
    apply lookup_app_Some in Hi as [Hi|[_ Hi]]; [by eapply Hs|].
    apply list_lookup_singleton_Some in Hi as [_ <-]. constructor.
  - unfold then_. destruct (heap s !! p') as [[st rs]|] eqn:Hp'; [|done].
    assert (p' < length (heap s))%nat as Hlen by by eapply lookup_lt_Some.
    assert (forward (set_heap (heap s ++ [Cell Pending []]) s)) as Hs1.
    { intros i c Hi. cbn in Hi.
      apply lookup_app_Some in Hi as [Hi|[_ Hi]]; [by eapply Hs|].
      apply list_lookup_singleton_Some in Hi as [_ <-]. constructor. }
    assert (st = Pending ∨ st ≠ Pending) as [->|Hst]
      by (destruct st; [by left|by right..]).
    + cbn. intros i c Hi. cbn in Hi. destruct (decide (i = p')) as [->|Hne].
      * rewrite list_lookup_insert_eq in Hi by (rewrite length_app; cbn [length]; lia).
        injection Hi as <-. cbn. apply Forall_app. split; [exact (Hs p' _ Hp')|].
        by repeat constructor.
      * rewrite list_lookup_insert_ne in Hi by done. by eapply Hs1.
    + replace (match st with Pending => _ | _ => _ end)
        with (let '(s2, o') := run_reaction (Reaction f (length (heap s))) st
                                 (set_heap (heap s ++ [Cell Pending []]) s) in
              (settle_promise (length (heap s)) o' s2, Normal (length (heap s))))
        by by destruct st.
      pose proof (run_reaction_heap (Reaction f (length (heap s))) st
                    (set_heap (heap s ++ [Cell Pending []]) s)) as [Hh _].
      destruct (run_reaction _ st _) as [s2 o']. cbn in Hh |- *.
      apply settle_forward. unfold forward. by rewrite Hh.
Qed.

Lemma reachable_forward acts : forward (perform_all acts initial).
Proof.
  unfold perform_all. induction acts as [|a acts IH] using rev_ind.
  - intros i c Hi. cbn in Hi. by rewrite lookup_nil in Hi.
  - rewrite foldl_app. by apply perform_forward.
Qed.

(** ** The handlers *)

Lemma log_result_string label result c :
  log_result label (VString result) c
  = (c ++ [[VString (label ++ result)]], Normal (VString result)).
Proof. reflexivity. Qed.

Lemma submitted_invoked_once script label s :
  well_formed s →
  invoked_once script s (submitted script (log_result label) s) (S (length (heap s))).
Proof.
  intros Hwf. split; [by eexists|].
  apply (chained_settles (length (heap s)) _ (log_result label)).
  - by apply submitted_chained.
  - apply log_result_passes_through.
Qed.

Lemma route_read_runs data s :
  route_read data s
  = (submitted (lit "getHeadline()") (log_result (lit "getHeadline: "))
       (called "read" data s), Normal (S (length (heap s)))).
Proof.
  unfold route_read. unfold mbind at 1. unfold Eff_bind. cbn [on_console log_warn].
  exact (runEvalScript_then _ _ (called "read" data s)).
Qed.

Lemma route_get_layers_runs data s :
  route_get_layers data s
  = (submitted (lit "getLayers()") (log_result (lit "getLayers: "))
       (called "get_layers" data s), Normal (S (length (heap s)))).
Proof.
  unfold route_get_layers. unfold mbind at 1. unfold Eff_bind. cbn [on_console log_warn].
  exact (runEvalScript_then _ _ (called "get_layers" data s)).
Qed.

Lemma route_get_active_document_name_runs data s :
  route_get_active_document_name data s
  = (submitted (lit "getActiveDocumentName()") (log_result (lit "save: "))
       (called "get_active_document_name" data s), Normal (S (length (heap s)))).
Proof.
  unfold route_get_active_document_name. unfold mbind at 1. unfold Eff_bind.
  cbn [on_console log_warn].
  exact (runEvalScript_then _ _ (called "get_active_document_name" data s)).
Qed.

Lemma runEvalScript_then_unfolded script f s :
  match runEvalScript script s with
  | (s', Normal p) => then_ p f s'
  | (s', Throw e) => (s', Throw e)
  end = (submitted script f s, Normal (S (length (heap s)))).
Proof. exact (runEvalScript_then script f s). Qed.

Lemma route_saveAs_runs data s :
  route_saveAs data s
  = match saveAs_script data with
    | Normal script =>
        (submitted script (log_result (lit "save: ")) (called "saveAsJPEG" data s),
         Normal (S (length (heap s))))
    | Throw e => (called "saveAsJPEG" data s, Throw e)
    end.
Proof.
  unfold route_saveAs, saveAs_script, mbind, Eff_bind, completion_bind, lift.
  cbn [on_console log_warn]. fold (called "saveAsJPEG" data s).
  destruct (Get data (lit "image_path")) as [image_path|e]; [|reflexivity].
  destruct (EscapeStringForJSX image_path) as [escapedPath|e]; [|reflexivity].
  match goal with |- context [match ?c with Normal _ => _ | Throw _ => _ end] =>
    destruct c as [script|e] end; [|reflexivity].
  exact (runEvalScript_then_unfolded _ _ (called "saveAsJPEG" data s)).
Qed.

Lemma route_set_visible_runs data s :
  route_set_visible data s
  = match set_visible_script data with
    | Normal script =>
        (submitted script (log_result (lit "setVisible: ")) (called "saveAsJPEG" data s),
         Normal (S (length (heap s))))
    | Throw e => (called "saveAsJPEG" data s, Throw e)
    end.
Proof.
  unfold route_set_visible, set_visible_script, mbind, Eff_bind, lift.
  cbn [on_console log_warn]. fold (called "saveAsJPEG" data s).
  match goal with |- context [match ?c with Normal _ => _ | Throw _ => _ end] =>
    destruct c as [script|e] end; [|reflexivity].
  exact (runEvalScript_then_unfolded _ _ (called "saveAsJPEG" data s)).
Qed.

Lemma client_routes_lookup name h :
  client_routes !! name = Some h →
  (name = lit "Photoshop.read" ∧ h = route_read)
  ∨ (name = lit "Photoshop.get_layers" ∧ h = route_get_layers)
  ∨ (name = lit "Photoshop.saveAs" ∧ h = route_saveAs)
  ∨ (name = lit "Photoshop.set_visible" ∧ h = route_set_visible)
  ∨ (name = lit "Photoshop.get_active_document_name"
     ∧ h = route_get_active_document_name).
Proof.
  unfold client_routes, addRoute. intros H.
  repeat (apply lookup_insert_Some in H as [[<- <-]|[_ H]]; [tauto|]).
  by rewrite lookup_empty in H.
Qed.

Lemma client_routes_saveAs :
  client_routes !! lit "Photoshop.saveAs" = Some route_saveAs.
Proof.
  unfold client_routes, addRoute.
  rewrite !lookup_insert_ne by done. apply lookup_insert_eq.
Qed.

Lemma client_routes_read :
  client_routes !! lit "Photoshop.read" = Some route_read.
Proof.
  unfold client_routes, addRoute.
  rewrite !lookup_insert_ne by done. apply lookup_insert_eq.
Qed.

Lemma rendered_at_most_once h label route script data s :
  well_formed s →
  h data s = match script with
             | Normal text =>
                 (submitted text (log_result label) (called route data s),
                  Normal (S (length (heap s))))
             | Throw e => (called route data s, Throw e)
             end →
  at_most_once h data s.
Proof.
  intros Hwf Hh. unfold at_most_once. rewrite Hh. destruct script as [text|e]; [|done].
  exists text. exact (submitted_invoked_once text label (called route data s) Hwf).
Qed.

(** C6, as the code has it: a dispatch of Photoshop.read, Photoshop.get_layers
    or Photoshop.get_active_document_name invokes the host's evalScript
    exactly once whatever the payload; a dispatch of Photoshop.saveAs or
    Photoshop.set_visible invokes it exactly once when the handler returns
    and not at all when rendering the script throws.  Whenever a handler
    returns, its promise stays pending until the host answers that one
    invocation, whatever else happens in between, and the answer fulfils it
    with the answer. *)
Theorem handlers_invoke_host_at_most_once name h data s :
  well_formed s →
  client_routes !! name = Some h →
  at_most_once h data s
  ∧ (name ∈ [lit "Photoshop.read"; lit "Photoshop.get_layers";
             lit "Photoshop.get_active_document_name"] →
     ∃ s' q, h data s = (s', Normal q)).
Proof.
  intros Hwf [[-> ->]|[[-> ->]|[[-> ->]|[[-> ->]|[-> ->]]]]]%client_routes_lookup.
  - split; [|by rewrite route_read_runs; eauto].
    by eapply (rendered_at_most_once _ _ _ (Normal _)), route_read_runs.
  - split; [|by rewrite route_get_layers_runs; eauto].
    by eapply (rendered_at_most_once _ _ _ (Normal _)), route_get_layers_runs.
  - split; [by eapply rendered_at_most_once, route_saveAs_runs|].
    intros Hin. repeat (apply elem_of_cons in Hin as [Hin|Hin]; [done|]).
    by apply elem_of_nil in Hin.
  - split; [by eapply rendered_at_most_once, route_set_visible_runs|].
    intros Hin. repeat (apply elem_of_cons in Hin as [Hin|Hin]; [done|]).
    by apply elem_of_nil in Hin.
  - split; [|by rewrite route_get_active_document_name_runs; eauto].
    by eapply (rendered_at_most_once _ _ _ (Normal _)),
         route_get_active_document_name_runs.
Qed.

Lemma handlers_invoke_host_at_most_once_witness :
  well_formed initial
  ∧ client_routes !! lit "Photoshop.read" = Some route_read
  ∧ at_most_once route_read VNull initial
  ∧ (lit "Photoshop.read" ∈ [lit "Photoshop.read"; lit "Photoshop.get_layers";
                             lit "Photoshop.get_active_document_name"] →
     ∃ s' q, route_read VNull initial = (s', Normal q)).
Proof.
  split; [exact well_formed_initial|]. split; [exact client_routes_read|].
  exact (handlers_invoke_host_at_most_once (lit "Photoshop.read") route_read
           VNull initial well_formed_initial client_routes_read).
Defined.

(** C6, as stated, fails for Photoshop.saveAs on the payload {}: the handler
    throws and the host is not invoked. *)
Lemma saveAs_empty_payload_invokes_nothing :
  client_routes !! lit "Photoshop.saveAs" = Some route_saveAs
  ∧ (∃ s', route_saveAs (VObject []) initial = (s', Throw TypeError)
           ∧ evalScript_calls s' = [])
  ∧ ¬ (∃ s' q script, route_saveAs (VObject []) initial = (s', Normal q)
                      ∧ invoked_once script initial s' q).
Proof.
  split; [exact client_routes_saveAs|]. split.
  - eexists. split; reflexivity.
  - intros (s' & q & script & H & _). discriminate H.
Qed.

(** C7: whatever the payload, Photoshop.read submits the script
    getHeadline() and returns a promise; the promise is pending as long as
    the host has not answered that call, whatever else the program and the
    host do, and when the host answers it with r the promise is fulfilled
    with r itself and stays so. *)
Theorem read_passes_result_through (data : value) (s : state) :
  well_formed s →
  ∃ s' p q,
    route_read data s = (s', Normal q)
    ∧ evalScript_calls s' = evalScript_calls s ++ [(lit "getHeadline()", Resolve p)]
    ∧ ∀ acts,
        forallb (λ a, negb (is_answer_to (length (evalScript_calls s)) a)) acts = true →
        status_of q (perform_all acts s') = Some Pending
        ∧ ∀ r acts',
            status_of q (perform_all
                           (acts ++ HostAnswers (length (evalScript_calls s)) r :: acts') s')
            = Some (Fulfilled (VString r)).
Proof.
  intros Hwf. rewrite route_read_runs.
  destruct (submitted_invoked_once (lit "getHeadline()") (lit "getHeadline: ")
              (called "read" data s) Hwf) as ([p Hp] & Hq).
  eexists _, p, _. split; [reflexivity|]. split; [exact Hp|]. exact Hq.
Qed.

Lemma read_passes_result_through_witness :
  well_formed initial
  ∧ ∃ s' p q,
      route_read (VObject []) initial = (s', Normal q)
      ∧ evalScript_calls s'
        = evalScript_calls initial ++ [(lit "getHeadline()", Resolve p)]
      ∧ ∀ acts,
          forallb (λ a, negb (is_answer_to (length (evalScript_calls initial)) a)) acts
          = true →
          status_of q (perform_all acts s') = Some Pending
          ∧ ∀ r acts',
              status_of q (perform_all
                             (acts ++ HostAnswers (length (evalScript_calls initial)) r
                                   :: acts') s')
              = Some (Fulfilled (VString r)).
Proof.
  split; [exact well_formed_initial|].
  exact (read_passes_result_through (VObject []) initial well_formed_initial).
Defined.

(** C9: when the image_path of the payload is not a string, Photoshop.saveAs
    throws a TypeError instead of returning a promise: the call is logged and
    nothing else happens, the host is not invoked. *)
Theorem saveAs_throws_without_string_path (data : value) (s : state) :
  (∀ path, Get data (lit "image_path") ≠ Normal (VString path)) →
  route_saveAs data s = (called "saveAsJPEG" data s, Throw TypeError)
  ∧ evalScript_calls (route_saveAs data s).1 = evalScript_calls s
  ∧ heap (route_saveAs data s).1 = heap s.
Proof.
  intros Hpath.
  assert (saveAs_script data = Throw TypeError) as Hscript.
  { unfold saveAs_script, mbind, completion_bind.
    destruct (Get data (lit "image_path")) as [v|[]]; [|done].
    rewrite EscapeStringForJSX_not_string; [done|]. intros path ->. by eapply Hpath. }
  rewrite route_saveAs_runs, Hscript. done.
Qed.

Lemma saveAs_throws_without_string_path_witness :
  (∀ path, Get (VObject [(lit "ext", VString (lit "jpg"))]) (lit "image_path")
           ≠ Normal (VString path))
  ∧ route_saveAs (VObject [(lit "ext", VString (lit "jpg"))]) initial
    = (called "saveAsJPEG" (VObject [(lit "ext", VString (lit "jpg"))]) initial,
       Throw TypeError).
Proof.
  assert (∀ path, Get (VObject [(lit "ext", VString (lit "jpg"))]) (lit "image_path")
                  ≠ Normal (VString path)) as H by (intros path; discriminate).
  split; [exact H|].
  exact (proj1 (saveAs_throws_without_string_path _ initial H)).
Defined.

(** ** What enters the script text *)

(** The script of Photoshop.saveAs on a payload with text fields: the path
    is escaped, the extension is not. *)
Lemma saveAs_script_of_strings path ext copy :
  saveAs_script (VObject [(lit "image_path", VString path);
                          (lit "ext", VString ext);
                          (lit "as_copy", VBool copy)])
  = Normal (lit "saveAs('" ++ escape_each path ++ lit "', '" ++ ext ++ lit "', "
              ++ (if copy then lit "true" else lit "false") ++ lit ")").
Proof.
  unfold saveAs_script.
  change (Get _ (lit "image_path")) with (Normal (VString path)).
  change (Get _ (lit "ext")) with (Normal (VString ext)).
  change (Get _ (lit "as_copy")) with (Normal (VBool copy)).
  unfold mbind at 1. unfold completion_bind at 1.
  rewrite EscapeStringForJSX_string.
  unfold plus, string_plus, str, mbind, mret, completion_bind, completion_ret.
  cbn [ToString].
  destruct copy; f_equal; repeat (rewrite <- app_assoc; cbn); reflexivity.
Qed.

(** C1 fails on the code: Photoshop.saveAs puts the ext of the payload into
    the script as it is.  With the ext below the host reads the literal jpg
    and then the injected call; EscapeStringForJSX would have kept the text
    inside the literal.  Photoshop.set_visible escapes nothing either. *)
Theorem saveAs_interpolates_ext_unescaped :
  (∃ s' q,
     route_saveAs (VObject [(lit "image_path", VString (lit "a.jpg"));
                            (lit "ext", VString (lit "jpg'); alert('x"));
                            (lit "as_copy", VBool true)]) initial
     = (s', Normal q)
     ∧ evalScript_calls s'
       = [(lit "saveAs('a.jpg', 'jpg'); alert('x', true)", Resolve 0)])
  ∧ read_single_quoted InBody (lit "jpg'); alert('x', true)")
    = Some (lit "jpg", lit "); alert('x', true)")
  ∧ EscapeStringForJSX (VString (lit "jpg'); alert('x"))
    = Normal (VString (lit "jpg\'); alert(\'x"))
  ∧ (∃ s' q,
       route_set_visible (VObject [(lit "layer_id", VString (lit "6); alert(1"));
                                   (lit "visibility", VBool true)]) initial
       = (s', Normal q)
       ∧ evalScript_calls s' = [(lit "setVisible(6); alert(1, true)", Resolve 0)]).
Proof.
  split; [eexists _, _; split; reflexivity|].
  split; [reflexivity|]. split; [reflexivity|].
  eexists _, _; split; reflexivity.
Qed.

(** ** Dispatch *)

(** C4: when the handler of a registered route throws on a payload, the
    dispatch itself does not throw: it ends normally with a HandlerFailure,
    answered by an error-response; and when the promise a handler returned
    is rejected later, the answer is an error-response as well. *)
Theorem dispatch_captures_handler_failure name h payload s :
  client_routes !! name = Some h →
  (∃ s' d, dispatch client_routes name payload s = (s', Normal d))
  ∧ (∀ s' e, h payload s = (s', Throw e) →
       dispatch client_routes name payload s = (s', Normal (Failed (HandlerFailure e)))
       ∧ ∀ id s'', reply id (Failed (HandlerFailure e)) s''
                   = Some (ErrorResponse id (HandlerFailure e)))
  ∧ (∀ s' p, h payload s = (s', Normal p) →
       dispatch client_routes name payload s = (s', Normal (Awaiting p))
       ∧ ∀ id s'' e, status_of p s'' = Some (Rejected e) →
                     reply id (Awaiting p) s'' = Some (ErrorResponse id (HandlerFailure e))).
Proof.
  intros Hh. unfold dispatch. rewrite Hh. split; [|split].
  - destruct (h payload s) as [s' [p|e]]; eauto.
  - intros s' e ->. done.
  - intros s' p ->. split; [done|]. intros id s'' e Hp. cbn. by rewrite Hp.
Qed.

Lemma dispatch_captures_handler_failure_witness :
  client_routes !! lit "Photoshop.saveAs" = Some route_saveAs
  ∧ route_saveAs (VObject []) initial = (called "saveAsJPEG" (VObject []) initial, Throw TypeError)
  ∧ dispatch client_routes (lit "Photoshop.saveAs") (VObject []) initial
    = (called "saveAsJPEG" (VObject []) initial, Normal (Failed (HandlerFailure TypeError))).
Proof.
  split; [exact client_routes_saveAs|]. split; [reflexivity|].
  destruct (dispatch_captures_handler_failure (lit "Photoshop.saveAs") route_saveAs
              (VObject []) initial client_routes_saveAs) as (_ & Hthrow & _).
  exact (proj1 (Hthrow _ TypeError eq_refl)).
Defined.

(** ** The Pending-Call Registry *)

Module RegistryFacts.
Import Registry.

Lemma consistent_empty : consistent empty.
Proof.
  split; cbn.
  - constructor.
  - intros id [x Hx]. by rewrite lookup_empty in Hx.
  - intros id Hid. by apply elem_of_nil in Hid.
  - intros id Hid. lia.
Qed.

Lemma consistent_register name timeout r :
  consistent r → consistent (register name timeout r).2.
Proof.
  intros [H1 H2 H3 H4]. split; cbn.
  - done.
  - intros id Hid. destruct (decide (id = next_id r)) as [->|Hne].
    + split; [lia|]. intros Hin%H3. lia.
    + rewrite lookup_insert_ne in Hid by done. destruct (H2 id Hid). split; [lia|done].
  - intros id Hid%H3. lia.
  - intros id Hid. destruct (decide (id = next_id r)) as [->|Hne].
    + left. rewrite lookup_insert_eq. by eexists.
    + rewrite lookup_insert_ne by done. apply H4. lia.
Qed.

(** Removing a registered entry and recording its settlement. *)
Lemma consistent_settle id by_ o r x :
  consistent r → entries r !! id = Some x →
  consistent (Reg (next_id r) (delete id (entries r))
                  (settlements r ++ [Settled id by_ o]) (anomalies r)).
Proof.
  intros [H1 H2 H3 H4] Hid.
  destruct (H2 id (mk_is_Some _ _ Hid)) as [Hlt Hnew].
  split; unfold settled_ids in *; cbn; rewrite ?fmap_app; cbn.
  - apply NoDup_app. split; [done|]. split; [|apply NoDup_singleton].
    intros j Hj ->%list_elem_of_singleton. done.
  - intros j Hj. destruct (decide (j = id)) as [->|Hne].
    + rewrite lookup_delete_eq in Hj. by destruct Hj.
    + rewrite lookup_delete_ne in Hj by done. destruct (H2 j Hj) as [? Hnot].
      split; [done|]. intros [Hin| ->%list_elem_of_singleton]%elem_of_app; done.
  - intros j [Hin| ->%list_elem_of_singleton]%elem_of_app; [by apply H3|done].
  - intros j Hj. destruct (decide (j = id)) as [->|Hne].
    + right. apply elem_of_app. right. by apply list_elem_of_singleton.
    + rewrite lookup_delete_ne by done. destruct (H4 j Hj) as [?|?]; [by left|].
      right. apply elem_of_app. by left.
Qed.

Lemma consistent_settle_entry id o r : consistent r → consistent (settle_entry id o r).
Proof.
  intros Hr. unfold settle_entry. destruct (entries r !! id) as [x|] eqn:Hid.
  - by eapply consistent_settle.
  - by destruct Hr.
Qed.

Lemma consistent_expire id r : consistent r → consistent (expire id r).
Proof.
  intros Hr. unfold expire. destruct (entries r !! id) as [x|] eqn:Hid; [|done].
  by eapply consistent_settle.
Qed.

Lemma drained_ids err r :
  settled_ids (drainAll err r) = settled_ids r ++ (map_to_list (entries r)).*1.
Proof.
  unfold settled_ids, drainAll. cbn. rewrite fmap_app. f_equal.
  rewrite <- list_fmap_compose. done.
Qed.

Lemma consistent_drainAll err r : consistent r → consistent (drainAll err r).
Proof.
  intros [H1 H2 H3 H4]. split; rewrite ?drained_ids; cbn.
  - apply NoDup_app. split; [done|]. split; [|apply NoDup_fst_map_to_list].
    intros id Hid Hin. apply list_elem_of_fmap in Hin as [[j x] [-> Hjx]].
    apply elem_of_map_to_list in Hjx. cbn in Hid.
    by destruct (H2 j (mk_is_Some _ _ Hjx)).
  - intros id [x Hx]. by rewrite lookup_empty in Hx.
  - intros id [Hin|Hin]%elem_of_app; [by apply H3|].
    apply list_elem_of_fmap in Hin as [[j x] [-> Hjx]].
    apply elem_of_map_to_list in Hjx. by destruct (H2 j (mk_is_Some _ _ Hjx)).
  - intros id Hid. right. apply elem_of_app.
    destruct (H4 id Hid) as [[x Hx]|?]; [right|by left].
    apply list_elem_of_fmap. exists (id, x). split; [done|].
    by apply elem_of_map_to_list.
Qed.

Lemma consistent_step r e : consistent r → consistent (step r e).
Proof.
  intros Hr. destruct e; cbn.
  - by apply consistent_register.
  - by apply consistent_settle_entry.
  - by apply consistent_settle_entry.
  - by apply consistent_expire.
  - by apply consistent_drainAll.
Qed.

Lemma consistent_run es : consistent (run es).
Proof.
  unfold run. induction es as [|e es IH] using rev_ind; [apply consistent_empty|].
  rewrite foldl_app. cbn. by apply consistent_step.
Qed.

Lemma run_snoc es e : run (es ++ [e]) = step (run es) e.
Proof. unfold run. by rewrite foldl_app. Qed.

Lemma calls_in_snoc es e :
  calls_in (es ++ [e]) = (calls_in es + calls_in [e])%nat.
Proof.
  induction es as [|e' es IH]; [done|].
  destruct e'; simpl in *; rewrite IH; lia.
Qed.

(** The counter has handed out one id for each call. *)
Lemma next_id_calls es : next_id (run es) = calls_in es.
Proof.
  induction es as [|e es IH] using rev_ind; [done|].
  rewrite run_snoc, calls_in_snoc, <- IH. destruct e; cbn.
  - lia.
  - unfold resolve, settle_entry. destruct (entries (run es) !! id); cbn; lia.
  - unfold reject, settle_entry. destruct (entries (run es) !! id); cbn; lia.
  - unfold expire. destruct (entries (run es) !! id); cbn; lia.
  - lia.
Qed.

Lemma explained_by_snoc es e x : explained_by es x → explained_by (es ++ [e]) x.
Proof.
  unfold explained_by.
  destruct (settled_by x), (settled_with x) as [v|[]]; try done;
    intros H; apply elem_of_app; by left.
Qed.

(** Every settlement on record is the work of an event. *)
Lemma settlements_explained es :
  ∀ x, x ∈ settlements (run es) → explained_by es x.
Proof.
  induction es as [|e es IH] using rev_ind; intros x Hx.
  { by apply elem_of_nil in Hx. }
  rewrite run_snoc in Hx.
  assert (∀ y, y ∈ settlements (run es) ++ [y] → x = y →
               explained_by (es ++ [e]) y → explained_by (es ++ [e]) x) as Hnew
    by (by intros y _ ->).
  destruct e as [name timeout|id result|id detail|id|]; cbn in Hx.
  - by apply explained_by_snoc, IH.
  - unfold resolve, settle_entry in Hx.
    destruct (entries (run es) !! id); cbn in Hx; [|by apply explained_by_snoc, IH].
    apply elem_of_app in Hx as [Hx| ->%list_elem_of_singleton];
      [by apply explained_by_snoc, IH|].
    unfold explained_by. cbn. apply elem_of_app. right. by apply list_elem_of_singleton.
  - unfold reject, settle_entry in Hx.
    destruct (entries (run es) !! id); cbn in Hx; [|by apply explained_by_snoc, IH].
    apply elem_of_app in Hx as [Hx| ->%list_elem_of_singleton];
      [by apply explained_by_snoc, IH|].
    unfold explained_by. cbn. apply elem_of_app. right. by apply list_elem_of_singleton.
  - unfold expire in Hx.
    destruct (entries (run es) !! id); cbn in Hx; [|by apply explained_by_snoc, IH].
    apply elem_of_app in Hx as [Hx| ->%list_elem_of_singleton];
      [by apply explained_by_snoc, IH|].
    unfold explained_by. cbn. apply elem_of_app. right. by apply list_elem_of_singleton.
  - apply elem_of_app in Hx as [Hx|Hx]; [by apply explained_by_snoc, IH|].
    apply list_elem_of_fmap in Hx as [[j c] [-> _]].
    unfold explained_by. cbn. apply elem_of_app. right. by apply list_elem_of_singleton.
Qed.

Lemma records_none (l : list settled) id :
  id ∉ settled_id <$> l → filter (λ x, settled_id x = id) l = [].
Proof.
  induction l as [|y l IH]; [done|]. cbn [fmap list_fmap]. intros Hid.
  apply not_elem_of_cons in Hid as [Hy Hl].
  rewrite filter_cons_False by congruence. by apply IH.
Qed.

Lemma records_one (l : list settled) x :
  NoDup (settled_id <$> l) → x ∈ l →
  filter (λ y, settled_id y = settled_id x) l = [x].
Proof.
  induction l as [|y l IH]; intros Hnd Hx; [by apply elem_of_nil in Hx|].
  cbn [fmap list_fmap] in Hnd. apply NoDup_cons in Hnd as [Hy Hnd].
  apply elem_of_cons in Hx as [->|Hx].
  - rewrite filter_cons_True by done. f_equal. by apply records_none.
  - rewrite filter_cons_False; [by apply IH|].
    intros Heq. apply Hy. rewrite Heq. by apply list_elem_of_fmap_2.
Qed.

Lemma records_new (l : list settled) x :
  settled_id x ∉ settled_id <$> l →
  filter (λ y, settled_id y = settled_id x) (l ++ [x]) = [x].
Proof.
  intros Hx. rewrite filter_app, records_none by done.
  by rewrite filter_cons_True.
Qed.

(** Every id handed out is either still registered and not settled, or no
    longer registered and settled by one record, the work of an event. *)
Lemma accounted es id :
  (id < calls_in es)%nat →
  (is_Some (entries (run es) !! id) ∧ settlements_of id (run es) = [])
  ∨ (entries (run es) !! id = None
     ∧ ∃ x, settlements_of id (run es) = [x] ∧ settled_id x = id ∧ explained_by es x).
Proof.
  intros Hid. rewrite <- next_id_calls in Hid.
  pose proof (consistent_run es) as [H1 H2 H3 H4]. unfold settlements_of.
  destruct (entries (run es) !! id) as [c|] eqn:Hc.
  - left. split; [by eexists|]. apply records_none.
    by destruct (H2 id (mk_is_Some _ _ Hc)).
  - right. split; [done|]. destruct (H4 id Hid) as [[c Hc']|Hin]; [congruence|].
    apply list_elem_of_fmap in Hin as [x [-> Hx]].
    exists x. split; [by apply records_one|]. split; [done|].
    by apply settlements_explained.
Qed.

(** C5: over any sequence of calls, responses, error-responses, timer
    expiries and connection losses, every call is registered under the next
    id of the counter, pending and not settled.  Every registered call is
    either still pending and not settled, or gone from the registry and
    settled by exactly one record, which is the work of an event: a matching
    response or error-response, the expiry of its timer, or the drain at a
    connection loss.  On a pending call each of the three settles it with
    its own cause and outcome; on a call that is not pending they record
    nothing.  After a connection loss the registry is empty and every call
    issued has exactly one settlement. *)
Theorem settled_exactly_once (es : list event) :
  next_id (run es) = calls_in es
  ∧ (∀ name timeout,
       (register name timeout (run es)).1 = calls_in es
       ∧ entries (run (es ++ [Call name timeout])) !! calls_in es
         = Some (PendingCall name timeout)
       ∧ settlements_of (calls_in es) (run (es ++ [Call name timeout])) = [])
  ∧ (∀ id, (id < calls_in es)%nat →
       (is_Some (entries (run es) !! id) ∧ settlements_of id (run es) = [])
       ∨ (entries (run es) !! id = None
          ∧ ∃ x, settlements_of id (run es) = [x] ∧ settled_id x = id
                 ∧ explained_by es x))
  ∧ (∀ id, (calls_in es ≤ id)%nat →
       entries (run es) !! id = None ∧ settlements_of id (run es) = [])
  ∧ (∀ id, is_Some (entries (run es) !! id) →
       (∀ result,
          settlements_of id (run (es ++ [GotResponse id result]))
          = [Settled id MatchingResponse (Success result)]
          ∧ entries (run (es ++ [GotResponse id result])) !! id = None)
       ∧ (∀ detail,
            settlements_of id (run (es ++ [GotErrorResponse id detail]))
            = [Settled id MatchingResponse (Failure (RemoteError detail))]
            ∧ entries (run (es ++ [GotErrorResponse id detail])) !! id = None)
       ∧ (settlements_of id (run (es ++ [TimerFired id]))
          = [Settled id TimerExpiry (Failure Timeout)]
          ∧ entries (run (es ++ [TimerFired id])) !! id = None)
       ∧ settlements_of id (run (es ++ [ConnectionClosed]))
         = [Settled id Drain (Failure ConnectionLost)])
  ∧ (∀ id, entries (run es) !! id = None →
       (∀ result, settlements (run (es ++ [GotResponse id result])) = settlements (run es))
       ∧ (∀ detail,
            settlements (run (es ++ [GotErrorResponse id detail])) = settlements (run es))
       ∧ settlements (run (es ++ [TimerFired id])) = settlements (run es))
  ∧ entries (run (es ++ [ConnectionClosed])) = ∅
  ∧ (∀ id, (id < calls_in es)%nat →
       ∃ x, settlements_of id (run (es ++ [ConnectionClosed])) = [x]
            ∧ settled_id x = id
            ∧ explained_by (es ++ [ConnectionClosed]) x).
Proof.
  pose proof (consistent_run es) as [H1 H2 H3 H4].
  pose proof (next_id_calls es) as Hnext.
  split; [done|]. split.
  { intros name timeout. rewrite run_snoc. cbn. rewrite Hnext.
    split; [done|]. split; [apply lookup_insert_eq|].
    apply records_none. intros Hin%H3. lia. }
  split; [apply accounted|]. split.
  { intros id Hid. rewrite <- Hnext in Hid. split.
    - destruct (entries (run es) !! id) as [c|] eqn:Hc; [|done].
      destruct (H2 id (mk_is_Some _ _ Hc)). lia.
    - apply records_none. intros Hin%H3. lia. }
  split.
  { intros id [c Hc]. destruct (H2 id (mk_is_Some _ _ Hc)) as [_ Hnew].
    unfold settlements_of. split; [|split; [|split]].
    - intros result. rewrite run_snoc. cbn. unfold resolve, settle_entry.
      rewrite Hc. cbn. split; [|apply lookup_delete_eq].
      exact (records_new _ (Settled id MatchingResponse (Success result)) Hnew).
    - intros detail. rewrite run_snoc. cbn. unfold reject, settle_entry.
      rewrite Hc. cbn. split; [|apply lookup_delete_eq].
      exact (records_new _ (Settled id MatchingResponse (Failure (RemoteError detail))) Hnew).
    - rewrite run_snoc. cbn. unfold expire. rewrite Hc. cbn.
      split; [|apply lookup_delete_eq].
      exact (records_new _ (Settled id TimerExpiry (Failure Timeout)) Hnew).
    - rewrite run_snoc. cbn.
      apply (records_one _ (Settled id Drain (Failure ConnectionLost))).
      + pose proof (consistent_drainAll ConnectionLost (run es) (consistent_run es))
          as [D1 _ _ _]. exact D1.
      + apply elem_of_app. right. apply list_elem_of_fmap.
        exists (id, c). split; [done|]. by apply elem_of_map_to_list. }
  split.
  { intros id Hc. split; [|split].
    - intros result. rewrite run_snoc. cbn. unfold resolve, settle_entry. by rewrite Hc.
    - intros detail. rewrite run_snoc. cbn. unfold reject, settle_entry. by rewrite Hc.
    - rewrite run_snoc. cbn. unfold expire. by rewrite Hc. }
  split; [by rewrite run_snoc|].
  intros id Hid.
  destruct (accounted (es ++ [ConnectionClosed]) id) as [[[c Hc] _]|[_ Hx]].
  - rewrite calls_in_snoc. cbn. lia.
  - rewrite run_snoc in Hc. cbn in Hc. by rewrite lookup_empty in Hc.
  - exact Hx.
Qed.

(** One call answered, one timed out, one drained; the late response to the
    second is an anomaly and settles nothing. *)
Lemma settled_exactly_once_witness :
  settlements (run [Call (lit "Photoshop.ping") 5000; Call (lit "a") 5000;
                    Call (lit "b") 5000; GotResponse 0 VNull; TimerFired 1;
                    GotResponse 1 VNull; ConnectionClosed])
  = [Settled 0 MatchingResponse (Success VNull);
     Settled 1 TimerExpiry (Failure Timeout);
     Settled 2 Drain (Failure ConnectionLost)]
  ∧ next_id (run [Call (lit "Photoshop.ping") 5000; Call (lit "a") 5000;
                  Call (lit "b") 5000; GotResponse 0 VNull; TimerFired 1;
                  GotResponse 1 VNull; ConnectionClosed]) = 3%nat.
Proof.
  split; [vm_compute; reflexivity|].
  exact (proj1 (settled_exactly_once
                  [Call (lit "Photoshop.ping") 5000; Call (lit "a") 5000;
                   Call (lit "b") 5000; GotResponse 0%nat VNull; TimerFired 1%nat;
                   GotResponse 1%nat VNull; ConnectionClosed])).
Defined.

End RegistryFacts.

(** * More properties *)

(** ** EscapeStringForJSX as a function on strings *)

Lemma escape_unit_cases c :
  (is_special c = true ∧ escape_unit c = [backslash; c])
  ∨ (is_special c = false ∧ escape_unit c = [c]).
Proof.
  unfold escape_unit, is_special.
  destruct (decide (c = backslash)) as [->|Hb]; [by left|].
  destruct (decide (c = quote)) as [->|Hq]; [by left|].
  destruct (decide (c = dquote)) as [->|Hd]; [by left|].
  right. by rewrite !bool_decide_eq_false_2.
Qed.

Lemma backslash_special : is_special backslash = true.
Proof. reflexivity. Qed.

(** X1: EscapeStringForJSX loses nothing: two strings with the same escaped
    text are the same string. *)
Theorem EscapeStringForJSX_injective (s t : jsstr) (e : value) :
  EscapeStringForJSX (VString s) = Normal e →
  EscapeStringForJSX (VString t) = Normal e →
  s = t.
Proof.
  rewrite !EscapeStringForJSX_string. intros [= <-] [= Heq]. symmetry in Heq.
  revert t Heq. induction s as [|c s IH]; intros [|d t] Heq.
  - done.
  - rewrite escape_each_cons in Heq.
    destruct (escape_unit_cases d) as [[_ Hd]|[_ Hd]]; rewrite Hd in Heq; done.
  - rewrite escape_each_cons in Heq.
    destruct (escape_unit_cases c) as [[_ Hc]|[_ Hc]]; rewrite Hc in Heq; done.
  - rewrite !escape_each_cons in Heq.
    destruct (escape_unit_cases c) as [[Sc Hc]|[Sc Hc]],
             (escape_unit_cases d) as [[Sd Hd]|[Sd Hd]];
      rewrite Hc, Hd in Heq; cbn in Heq.
    + injection Heq as -> Heq. f_equal. by apply IH.
    + injection Heq as <- Heq. by rewrite backslash_special in Sd.
    + injection Heq as -> Heq. by rewrite backslash_special in Sc.
    + injection Heq as -> Heq. f_equal. by apply IH.
Qed.

Lemma EscapeStringForJSX_injective_witness :
  EscapeStringForJSX (VString (lit "it's")) = Normal (VString (lit "it\'s"))
  ∧ lit "it's" = lit "it's".
Proof.
  split; [reflexivity|].
  exact (EscapeStringForJSX_injective (lit "it's") (lit "it's")
           (VString (lit "it\'s")) eq_refl eq_refl).
Defined.

Lemma escape_each_length s :
  length (escape_each s) = (length s + specials s)%nat.
Proof.
  induction s as [|c s IH]; [done|].
  rewrite escape_each_cons, length_app, IH. cbn [specials length].
  destruct (escape_unit_cases c) as [[Sc Hc]|[Sc Hc]]; rewrite Hc, Sc; cbn; lia.
Qed.

Lemma specials_le s : (specials s ≤ length s)%nat.
Proof.
  induction s as [|c s IH]; [done|]. cbn [specials length].
  destruct (is_special c); lia.
Qed.

(** X2: the escaped text is the string lengthened by one code unit for each
    backslash, single quote and double quote in it: at least as long as the
    string and at most twice as long. *)
Theorem EscapeStringForJSX_length (s : jsstr) :
  ∃ e, EscapeStringForJSX (VString s) = Normal (VString e)
       ∧ length e = (length s + specials s)%nat
       ∧ (length s ≤ length e ≤ 2 * length s)%nat.
Proof.
  exists (escape_each s). split; [apply EscapeStringForJSX_string|].
  rewrite escape_each_length. split; [done|].
  pose proof (specials_le s). lia.
Qed.

(** X3: escaping a concatenation is concatenating the escaped parts. *)
Theorem EscapeStringForJSX_app (s t : jsstr) :
  ∃ es et, EscapeStringForJSX (VString s) = Normal (VString es)
           ∧ EscapeStringForJSX (VString t) = Normal (VString et)
           ∧ EscapeStringForJSX (VString (s ++ t)) = Normal (VString (es ++ et)).
Proof.
  exists (escape_each s), (escape_each t). rewrite !EscapeStringForJSX_string.
  repeat split. unfold escape_each. by rewrite flat_map_app.
Qed.

Lemma escape_each_plain s :
  forallb (λ c, negb (is_special c)) s = true → escape_each s = s.
Proof.
  induction s as [|c s IH]; [done|]. cbn [forallb].
  intros [Hc Hs]%andb_true_iff. rewrite escape_each_cons, IH by done.
  destruct (escape_unit_cases c) as [[Sc _]|[_ ->]]; [|done].
  by rewrite Sc in Hc.
Qed.

Lemma specials_none_plain s :
  specials s = 0%nat → forallb (λ c, negb (is_special c)) s = true.
Proof.
  induction s as [|c s IH]; [done|]. cbn [specials forallb].
  destruct (is_special c); [lia|]. intros Hs. by apply IH.
Qed.

Lemma escape_each_fixed s :
  escape_each s = s ↔ forallb (λ c, negb (is_special c)) s = true.
Proof.
  split; [|apply escape_each_plain].
  intros Heq. apply (f_equal length) in Heq.
  rewrite escape_each_length in Heq. apply specials_none_plain. lia.
Qed.

(** The escaped text holds a backslash, single quote or double quote when
    the string does, and only then. *)
Lemma escape_each_keeps_plain s :
  forallb (λ c, negb (is_special c)) (escape_each s)
  = forallb (λ c, negb (is_special c)) s.
Proof.
  induction s as [|c s IH]; [done|].
  rewrite escape_each_cons, forallb_app, IH. cbn [forallb].
  destruct (escape_unit_cases c) as [[Sc ->]|[Sc ->]]; cbn [forallb];
    rewrite ?backslash_special, Sc; done.
Qed.

(** X4: EscapeStringForJSX returns a string unchanged exactly when the
    string holds no backslash, single quote or double quote.  It is not
    idempotent: escaping the escaped text of s again returns it unchanged
    exactly in that same case, and otherwise returns a longer text, so on
    every string the first pass changes the second pass changes the result
    again. *)
Theorem EscapeStringForJSX_fixed_points (s : jsstr) :
  (EscapeStringForJSX (VString s) = Normal (VString s)
   ↔ forallb (λ c, negb (is_special c)) s = true)
  ∧ ∃ e e2,
      EscapeStringForJSX (VString s) = Normal (VString e)
      ∧ EscapeStringForJSX (VString e) = Normal (VString e2)
      ∧ (e2 = e ↔ forallb (λ c, negb (is_special c)) s = true)
      ∧ (e ≠ s → e2 ≠ e ∧ (length e < length e2)%nat).
Proof.
  rewrite !EscapeStringForJSX_string. split.
  - split; [intros [= Heq]; by apply escape_each_fixed|].
    intros Hs. f_equal. f_equal. by apply escape_each_fixed.
  - exists (escape_each s), (escape_each (escape_each s)).
    rewrite !EscapeStringForJSX_string. split; [done|]. split; [done|].
    split; [by rewrite escape_each_fixed, escape_each_keeps_plain|].
    intros Hchanged.
    assert (forallb (λ c, negb (is_special c)) (escape_each s) ≠ true) as Hnot.
    { rewrite escape_each_keeps_plain. intros Hs. by apply Hchanged, escape_each_fixed. }
    split; [by rewrite escape_each_fixed|].
    rewrite (escape_each_length (escape_each s)).
    destruct (specials (escape_each s)) as [|n] eqn:Hn; [|lia].
    exfalso. by apply Hnot, specials_none_plain.
Qed.

(** ** The scripts the handlers render *)

Lemma ToString_primitive v : primitive v = true → ∃ t, ToString v = Normal t.
Proof. destruct v as [| |[]| | | |]; try done; by eexists. Qed.

Lemma saveAs_script_render data path ext copy te tc :
  Get data (lit "image_path") = Normal (VString path) →
  Get data (lit "ext") = Normal ext → ToString ext = Normal te →
  Get data (lit "as_copy") = Normal copy → ToString copy = Normal tc →
  saveAs_script data
  = Normal (lit "saveAs('" ++ escape_each path ++ lit "', '" ++ te ++ lit "', "
              ++ tc ++ lit ")").
Proof.
  intros Hpath Hext Hte Hcopy Htc. unfold saveAs_script. rewrite Hpath, Hext, Hcopy.
  unfold mbind at 1. unfold completion_bind at 1.
  rewrite EscapeStringForJSX_string.
  unfold plus, string_plus, str, mbind, mret, completion_bind, completion_ret.
  rewrite Hte, Htc. cbn [ToString].
  f_equal. repeat (rewrite <- app_assoc; cbn). reflexivity.
Qed.

(** X5: on a payload whose image_path is a string and whose ext and as_copy
    convert to text, Photoshop.saveAs hands the host exactly the text
    saveAs('P', 'E', C), where P is the escaped path and E and C are the
    texts of ext and as_copy, unescaped. *)
Theorem saveAs_submits_rendered_script data path ext copy te tc s :
  Get data (lit "image_path") = Normal (VString path) →
  Get data (lit "ext") = Normal ext → ToString ext = Normal te →
  Get data (lit "as_copy") = Normal copy → ToString copy = Normal tc →
  ∃ s' e,
    EscapeStringForJSX (VString path) = Normal (VString e)
    ∧ route_saveAs data s = (s', Normal (S (length (heap s))))
    ∧ evalScript_calls s'
      = evalScript_calls s
        ++ [(lit "saveAs('" ++ e ++ lit "', '" ++ te ++ lit "', " ++ tc ++ lit ")",
             Resolve (length (heap s)))].
Proof.
  intros Hpath Hext Hte Hcopy Htc. eexists _, (escape_each path).
  split; [apply EscapeStringForJSX_string|].
  rewrite route_saveAs_runs,
    (saveAs_script_render data path ext copy te tc Hpath Hext Hte Hcopy Htc).
  split; reflexivity.
Qed.

Lemma saveAs_submits_rendered_script_witness :
  ∃ s' e,
    EscapeStringForJSX (VString (lit "C:\out\a.jpg")) = Normal (VString e)
    ∧ route_saveAs (VObject [(lit "image_path", VString (lit "C:\out\a.jpg"));
                             (lit "ext", VString (lit "jpg"));
                             (lit "as_copy", VBool true)]) initial
      = (s', Normal (S (length (heap initial))))
    ∧ evalScript_calls s'
      = evalScript_calls initial
        ++ [(lit "saveAs('" ++ e ++ lit "', '" ++ lit "jpg" ++ lit "', "
               ++ lit "true" ++ lit ")",
             Resolve (length (heap initial)))].
Proof.
  exact (saveAs_submits_rendered_script
           (VObject [(lit "image_path", VString (lit "C:\out\a.jpg"));
                     (lit "ext", VString (lit "jpg"));
                     (lit "as_copy", VBool true)])
           (lit "C:\out\a.jpg") (VString (lit "jpg")) (VBool true)
           (lit "jpg") (lit "true") initial
           eq_refl eq_refl eq_refl eq_refl eq_refl).
Defined.

(** X6: under the same conditions, when the path holds no line terminator,
    the host reads the first argument of the saveAs call back as the path
    itself: the literal that starts after saveAs(' has the value of
    image_path and ends where the handler closed it. *)
Theorem saveAs_path_arrives_intact data path ext copy te tc s :
  Get data (lit "image_path") = Normal (VString path) →
  Get data (lit "ext") = Normal ext → ToString ext = Normal te →
  Get data (lit "as_copy") = Normal copy → ToString copy = Normal tc →
  has_line_terminator path = false →
  ∃ s' q p text,
    route_saveAs data s = (s', Normal q)
    ∧ evalScript_calls s' = evalScript_calls s ++ [(lit "saveAs('" ++ text, Resolve p)]
    ∧ read_single_quoted InBody text
      = Some (path, lit ", '" ++ te ++ lit "', " ++ tc ++ lit ")").
Proof.
  intros Hpath Hext Hte Hcopy Htc Hlt.
  rewrite route_saveAs_runs,
    (saveAs_script_render data path ext copy te tc Hpath Hext Hte Hcopy Htc).
  eexists _, _, _, (escape_each path ++ quote :: lit ", '" ++ te ++ lit "', " ++ tc ++ lit ")").
  split; [reflexivity|]. split; [reflexivity|]. by apply read_escaped.
Qed.

Lemma saveAs_path_arrives_intact_witness :
  has_line_terminator (lit "C:\it's.jpg") = false
  ∧ ∃ s' q p text,
      route_saveAs (VObject [(lit "image_path", VString (lit "C:\it's.jpg"));
                             (lit "ext", VString (lit "jpg"));
                             (lit "as_copy", VBool false)]) initial
      = (s', Normal q)
      ∧ evalScript_calls s'
        = evalScript_calls initial ++ [(lit "saveAs('" ++ text, Resolve p)]
      ∧ read_single_quoted InBody text
        = Some (lit "C:\it's.jpg", lit ", '" ++ lit "jpg" ++ lit "', " ++ lit "false" ++ lit ")").
Proof.
  split; [reflexivity|].
  exact (saveAs_path_arrives_intact
           (VObject [(lit "image_path", VString (lit "C:\it's.jpg"));
                     (lit "ext", VString (lit "jpg"));
                     (lit "as_copy", VBool false)])
           (lit "C:\it's.jpg") (VString (lit "jpg")) (VBool false)
           (lit "jpg") (lit "false") initial
           eq_refl eq_refl eq_refl eq_refl eq_refl eq_refl).
Defined.

(** X7: a payload object with a string image_path and neither ext nor
    as_copy is not refused: the missing fields read as undefined, and the
    host is handed saveAs('P', 'undefined', undefined). *)
Theorem saveAs_missing_fields_render_undefined props path s :
  own_property props (lit "image_path") = Some (VString path) →
  own_property props (lit "ext") = None →
  own_property props (lit "as_copy") = None →
  ∃ s' e,
    EscapeStringForJSX (VString path) = Normal (VString e)
    ∧ route_saveAs (VObject props) s = (s', Normal (S (length (heap s))))
    ∧ evalScript_calls s'
      = evalScript_calls s
        ++ [(lit "saveAs('" ++ e ++ lit "', 'undefined', undefined)",
             Resolve (length (heap s)))].
Proof.
  intros Hpath Hext Hcopy. eexists _, (escape_each path).
  split; [apply EscapeStringForJSX_string|].
  assert (saveAs_script (VObject props)
          = Normal (lit "saveAs('" ++ escape_each path ++ lit "', '" ++ lit "undefined"
                      ++ lit "', " ++ lit "undefined" ++ lit ")")) as Hscript.
  { apply (saveAs_script_render _ path VUndefined VUndefined); cbn [Get];
      rewrite ?Hpath, ?Hext, ?Hcopy; reflexivity. }
  rewrite route_saveAs_runs, Hscript. split; reflexivity.
Qed.

Lemma saveAs_missing_fields_render_undefined_witness :
  ∃ s' e,
    EscapeStringForJSX (VString (lit "a.jpg")) = Normal (VString e)
    ∧ route_saveAs (VObject [(lit "image_path", VString (lit "a.jpg"))]) initial
      = (s', Normal (S (length (heap initial))))
    ∧ evalScript_calls s'
      = evalScript_calls initial
        ++ [(lit "saveAs('" ++ e ++ lit "', 'undefined', undefined)",
             Resolve (length (heap initial)))].
Proof.
  exact (saveAs_missing_fields_render_undefined
           [(lit "image_path", VString (lit "a.jpg"))] (lit "a.jpg") initial
           eq_refl eq_refl eq_refl).
Defined.

Lemma set_visible_script_render data v1 t1 v2 t2 :
  Get data (lit "layer_id") = Normal v1 → ToString v1 = Normal t1 →
  Get data (lit "visibility") = Normal v2 → ToString v2 = Normal t2 →
  set_visible_script data
  = Normal (lit "setVisible(" ++ t1 ++ lit ", " ++ t2 ++ lit ")").
Proof.
  intros Hv1 Ht1 Hv2 Ht2. unfold set_visible_script. rewrite Hv1, Hv2.
  unfold plus, string_plus, str, mbind, mret, completion_bind, completion_ret.
  rewrite Ht1, Ht2. cbn [ToString].
  f_equal. repeat (rewrite <- app_assoc; cbn). reflexivity.
Qed.

(** X8: on the payload null (or undefined) Photoshop.set_visible throws a
    TypeError when it reads layer_id: the dispatch is logged and the host is
    not invoked. *)
Theorem set_visible_throws_on_null (data : value) (s : state) :
  data = VNull ∨ data = VUndefined →
  route_set_visible data s = (called "saveAsJPEG" data s, Throw TypeError)
  ∧ evalScript_calls (route_set_visible data s).1 = evalScript_calls s
  ∧ heap (route_set_visible data s).1 = heap s.
Proof.
  intros [-> | ->]; rewrite route_set_visible_runs; done.
Qed.

Lemma set_visible_throws_on_null_witness :
  route_set_visible VNull initial = (called "saveAsJPEG" VNull initial, Throw TypeError)
  ∧ evalScript_calls (route_set_visible VNull initial).1 = evalScript_calls initial
  ∧ heap (route_set_visible VNull initial).1 = heap initial.
Proof. exact (set_visible_throws_on_null VNull initial (or_introl eq_refl)). Defined.

(** X9: on every payload that is neither null nor undefined and whose
    layer_id and visibility are primitive values (numbers, booleans, strings,
    null, or missing), Photoshop.set_visible returns a promise and hands the
    host exactly setVisible(L, V), L and V being the texts of the two
    values. *)
Theorem set_visible_submits_rendered_script data v1 v2 s :
  Get data (lit "layer_id") = Normal v1 → primitive v1 = true →
  Get data (lit "visibility") = Normal v2 → primitive v2 = true →
  ∃ s' t1 t2,
    ToString v1 = Normal t1 ∧ ToString v2 = Normal t2
    ∧ route_set_visible data s = (s', Normal (S (length (heap s))))
    ∧ evalScript_calls s'
      = evalScript_calls s
        ++ [(lit "setVisible(" ++ t1 ++ lit ", " ++ t2 ++ lit ")",
             Resolve (length (heap s)))].
Proof.
  intros Hv1 [t1 Ht1]%ToString_primitive Hv2 [t2 Ht2]%ToString_primitive.
  eexists _, t1, t2. split; [done|]. split; [done|].
  rewrite route_set_visible_runs,
    (set_visible_script_render data v1 t1 v2 t2 Hv1 Ht1 Hv2 Ht2).
  split; reflexivity.
Qed.

Lemma set_visible_submits_rendered_script_witness :
  ∃ s' t1 t2,
    ToString (VNumber (Num (lit "6"))) = Normal t1 ∧ ToString VUndefined = Normal t2
    ∧ route_set_visible (VObject [(lit "layer_id", VNumber (Num (lit "6")))]) initial
      = (s', Normal (S (length (heap initial))))
    ∧ evalScript_calls s'
      = evalScript_calls initial
        ++ [(lit "setVisible(" ++ t1 ++ lit ", " ++ t2 ++ lit ")",
             Resolve (length (heap initial)))].
Proof.
  exact (set_visible_submits_rendered_script
           (VObject [(lit "layer_id", VNumber (Num (lit "6")))])
           (VNumber (Num (lit "6"))) VUndefined initial
           eq_refl eq_refl eq_refl eq_refl).
Defined.

(** ** What every dispatch does *)

Lemma registered_runs name h data s :
  client_routes !! name = Some h →
  ∃ route,
    (∃ script label,
       h data s = (submitted script (log_result label) (called route data s),
                   Normal (S (length (heap s)))))
    ∨ h data s = (called route data s, Throw TypeError).
Proof.
  intros [[-> ->]|[[-> ->]|[[-> ->]|[[-> ->]|[-> ->]]]]]%client_routes_lookup.
  - eexists. left. eexists _, _. apply route_read_runs.
  - eexists. left. eexists _, _. apply route_get_layers_runs.
  - exists "saveAsJPEG"%string. rewrite route_saveAs_runs.
    destruct (saveAs_script data) as [script|[]]; [left; by eexists _, _|by right].
  - exists "saveAsJPEG"%string. rewrite route_set_visible_runs.
    destruct (set_visible_script data) as [script|[]]; [left; by eexists _, _|by right].
  - eexists. left. eexists _, _. apply route_get_active_document_name_runs.
Qed.

(** X10: every dispatch of a registered route, whether its handler returns
    or throws, first writes one line to the log, the message naming the route
    followed by the payload as it came; nothing else is logged before the
    host answers. *)
Theorem dispatch_logs_payload_once name h data s :
  client_routes !! name = Some h →
  ∃ message, console (h data s).1 = console s ++ [[VString message; data]].
Proof.
  intros Hh. destruct (registered_runs name h data s Hh)
    as [route [(script & label & ->)| ->]]; by eexists.
Qed.

Lemma dispatch_logs_payload_once_witness :
  ∃ message,
    console (route_set_visible VNull initial).1
    = console initial ++ [[VString message; VNull]].
Proof.
  apply (dispatch_logs_payload_once (lit "Photoshop.set_visible") route_set_visible).
  unfold client_routes, addRoute.
  rewrite !lookup_insert_ne by done. apply lookup_insert_eq.
Defined.

(** ** The promises of the handlers *)


Lemma called_well_formed route data s : well_formed s → well_formed (called route data s).
Proof. by intros Hwf. Qed.

Lemma submitted_well_formed script f route data s :
  well_formed s → well_formed (submitted script f (called route data s)).
Proof.
  intros Hwf. rewrite submitted_as_actions. unfold perform_all. cbn [foldl].
  by repeat apply perform_well_formed.
Qed.



Lemma unanswered_l k1 k2 acts :
  unanswered k1 k2 acts = true → forallb (λ a, negb (is_answer_to k1 a)) acts = true.
Proof.
  unfold unanswered. rewrite !forallb_forall. intros H a Ha.
  by destruct (andb_prop _ _ (H a Ha)).
Qed.

Lemma unanswered_r k1 k2 acts :
  unanswered k1 k2 acts = true → forallb (λ a, negb (is_answer_to k2 a)) acts = true.
Proof.
  unfold unanswered. rewrite !forallb_forall. intros H a Ha.
  by destruct (andb_prop _ _ (H a Ha)).
Qed.

Lemma unanswered_through k k' pre result mid :
  k' ≠ k →
  forallb (λ a, negb (is_answer_to k a)) pre = true →
  forallb (λ a, negb (is_answer_to k a)) mid = true →
  forallb (λ a, negb (is_answer_to k a)) (pre ++ HostAnswers k' result :: mid) = true.
Proof.
  intros Hne Hpre Hmid. rewrite forallb_app, Hpre. cbn.
  by rewrite bool_decide_eq_false_2, Hmid.
Qed.

Lemma actions_regroup (pre mid post : list action) a b :
  pre ++ a :: mid ++ b :: post = (pre ++ a :: mid) ++ b :: post.
Proof. by rewrite <- app_assoc. Qed.

(** X12: two dispatches in flight do not get each other's results.  When a
    handler of a registered route has returned and then another one, the
    answer of the host to the call of the first fulfils the promise of the
    first and the answer to the call of the second that of the second, in
    whichever order the host answers and whatever happens in between. *)
Theorem dispatches_not_cross_wired name1 h1 d1 name2 h2 d2 s s1 q1 s2 q2 :
  well_formed s →
  client_routes !! name1 = Some h1 → h1 d1 s = (s1, Normal q1) →
  client_routes !! name2 = Some h2 → h2 d2 s1 = (s2, Normal q2) →
  q1 ≠ q2
  ∧ ∀ r1 r2 pre mid post,
      unanswered (length (evalScript_calls s)) (length (evalScript_calls s1)) pre = true →
      unanswered (length (evalScript_calls s)) (length (evalScript_calls s1)) mid = true →
      (status_of q1 (perform_all
                       (pre ++ HostAnswers (length (evalScript_calls s)) r1
                            :: mid ++ HostAnswers (length (evalScript_calls s1)) r2 :: post)
                       s2)
       = Some (Fulfilled (VString r1))
       ∧ status_of q2 (perform_all
                         (pre ++ HostAnswers (length (evalScript_calls s)) r1
                              :: mid ++ HostAnswers (length (evalScript_calls s1)) r2 :: post)
                         s2)
         = Some (Fulfilled (VString r2)))
      ∧ (status_of q1 (perform_all
                         (pre ++ HostAnswers (length (evalScript_calls s1)) r2
                              :: mid ++ HostAnswers (length (evalScript_calls s)) r1 :: post)
                         s2)
         = Some (Fulfilled (VString r1))
         ∧ status_of q2 (perform_all
                           (pre ++ HostAnswers (length (evalScript_calls s1)) r2
                                :: mid ++ HostAnswers (length (evalScript_calls s)) r1 :: post)
                           s2)
           = Some (Fulfilled (VString r2))).
Proof.
  intros Hwf Hh1 Hrun1 Hh2 Hrun2.
  destruct (registered_runs name1 h1 d1 s Hh1) as [route1 [(script1 & label1 & Heq)|Heq]];
    rewrite Heq in Hrun1; [|done]. injection Hrun1 as <- <-.
  set (s1 := submitted script1 (log_result label1) (called route1 d1 s)) in *.
  destruct (registered_runs name2 h2 d2 s1 Hh2) as [route2 [(script2 & label2 & Heq2)|Heq2]];
    rewrite Heq2 in Hrun2; [|done]. injection Hrun2 as <- <-.
  set (k1 := length (evalScript_calls s)).
  set (k2 := length (evalScript_calls s1)).
  assert (k2 = S k1) as Hk.
  { unfold k2, k1, s1, submitted. cbn. rewrite length_app. cbn. lia. }
  assert (well_formed s1) as Hwf1 by by apply submitted_well_formed.
  pose proof (submitted_chained script1 (log_result label1) (called route1 d1 s)
                (called_well_formed route1 d1 s Hwf)) as Hc1.
  fold s1 in Hc1.
  change (length (heap (called route1 d1 s))) with (length (heap s)) in Hc1.
  change (length (evalScript_calls (called route1 d1 s))) with k1 in Hc1.
  assert (chained (length (heap s)) (S (length (heap s))) (log_result label1) k1
            (submitted script2 (log_result label2) (called route2 d2 s1))) as Hc1'.
  { rewrite submitted_as_actions. by apply perform_all_chained. }
  pose proof (submitted_chained script2 (log_result label2) (called route2 d2 s1)
                (called_well_formed route2 d2 s1 Hwf1)) as Hc2.
  change (length (heap (called route2 d2 s1))) with (length (heap s1)) in Hc2.
  change (length (evalScript_calls (called route2 d2 s1))) with k2 in Hc2.
  pose proof (chained_settles _ _ _ _ _ Hc1' (log_result_passes_through label1)) as Hq1.
  pose proof (chained_settles _ _ _ _ _ Hc2 (log_result_passes_through label2)) as Hq2.
  assert (length (heap s) < length (heap s1))%nat as Hlen
    by (unfold s1, submitted; cbn; rewrite length_app; cbn; lia).
  split; [rewrite length_app; cbn [length]; lia|]. intros r1 r2 pre mid post Hpre Hmid.
  split; split.
  - apply (Hq1 pre (unanswered_l _ _ _ Hpre)).
  - rewrite actions_regroup.
    apply Hq2, unanswered_through; [lia|by eapply unanswered_r..].
  - rewrite actions_regroup.
    apply Hq1, unanswered_through; [lia|by eapply unanswered_l..].
  - apply (Hq2 pre (unanswered_r _ _ _ Hpre)).
Qed.

Lemma dispatches_not_cross_wired_witness :
  well_formed initial
  ∧ ∀ r1 r2,
      status_of 1 (perform_all [HostAnswers 1 r2; HostAnswers 0 r1]
                     (route_get_layers VNull (route_read VNull initial).1).1)
      = Some (Fulfilled (VString r1))
      ∧ status_of 3 (perform_all [HostAnswers 1 r2; HostAnswers 0 r1]
                       (route_get_layers VNull (route_read VNull initial).1).1)
        = Some (Fulfilled (VString r2)).
Proof.
  split; [exact well_formed_initial|]. intros r1 r2.
  destruct (dispatches_not_cross_wired
              (lit "Photoshop.read") route_read VNull
              (lit "Photoshop.get_layers") route_get_layers VNull
              initial (route_read VNull initial).1 1%nat
              (route_get_layers VNull (route_read VNull initial).1).1 3%nat
              well_formed_initial client_routes_read eq_refl
              ltac:(unfold client_routes, addRoute;
                    rewrite !lookup_insert_ne by done; apply lookup_insert_eq)
              eq_refl) as [_ H].
  exact (proj2 (H r1 r2 [] [] [] eq_refl eq_refl)).
Defined.

(** ** Answers that come twice *)

Lemma host_answers_settled p k s st result :
  tracked p k s → status_of p s = Some st → st ≠ Pending →
  host_answers k result s = s.
Proof.
  intros (_ & _ & [script Hk] & _) Hst Hne. unfold host_answers. rewrite Hk.
  unfold status_of in Hst. destruct (heap s !! p) as [[st' rs]|] eqn:Hp; [|done].
  injection Hst as ->. by eapply settle_settled.
Qed.

(** X13: when the host calls the callback of one call of evalScript a
    second time, nothing happens: the state is the one before, so the result
    is not logged again and no promise changes. *)
Theorem second_answer_changes_nothing script s acts r1 acts' r2 :
  well_formed s →
  host_answers (length (evalScript_calls s)) r2
    (perform_all (acts ++ HostAnswers (length (evalScript_calls s)) r1 :: acts')
       (runEvalScript script s).1)
  = perform_all (acts ++ HostAnswers (length (evalScript_calls s)) r1 :: acts')
      (runEvalScript script s).1.
Proof.
  intros Hwf. destruct (runEvalScript_fresh_tracked script s Hwf) as [HT _].
  set (k := length (evalScript_calls s)) in *.
  set (p := length (heap s)) in *.
  rewrite perform_all_app.
  change (perform_all (?a :: acts') ?s0) with (perform_all acts' (perform s0 a)).
  pose proof (perform_all_tracked p k acts _ HT) as HT1.
  destruct (perform_tracked p k _ (HostAnswers k r1) HT1) as [HT2 Hst].
  assert (∃ st, status_of p (perform (perform_all acts (runEvalScript script s).1)
                               (HostAnswers k r1)) = Some st ∧ st ≠ Pending)
    as (st & Hst' & Hne).
  { rewrite Hst. destruct HT1 as (Hlen & _).
    unfold status_of. destruct (lookup_lt_is_Some_2 _ _ Hlen) as [[st rs] ->]. cbn.
    destruct st; [|by eexists..]. rewrite decide_True by done. by eexists. }
  apply (host_answers_settled p k _ st).
  - by apply perform_all_tracked.
  - by apply perform_all_keeps_settled.
  - done.
Qed.

Lemma second_answer_changes_nothing_witness :
  well_formed initial
  ∧ host_answers 0 (lit "again")
      (perform_all [Then 0 (log_result (lit "setVisible: ")); HostAnswers 0 (lit "true")]
         (runEvalScript (lit "setVisible(6, true)") initial).1)
    = perform_all [Then 0 (log_result (lit "setVisible: ")); HostAnswers 0 (lit "true")]
        (runEvalScript (lit "setVisible(6, true)") initial).1.
Proof.
  split; [exact well_formed_initial|].
  exact (second_answer_changes_nothing (lit "setVisible(6, true)") initial
           [Then 0%nat (log_result (lit "setVisible: "))] (lit "true") [] (lit "again")
           well_formed_initial).
Defined.

(** ** restart_extension *)

(** X14: restart_extension never throws and always leaves the page at
    ./index.html, whether removing the listeners succeeds or throws and
    whatever it does to the page. *)
Theorem restart_extension_always_reloads (removeAllListeners : Eff page unit) (w : page) :
  ∃ w', restart_extension removeAllListeners w = (w', Normal ())
        ∧ href w' = lit "./index.html".
Proof.
  unfold restart_extension, try_catch, mbind, Eff_bind. cbn [page_log_warn].
  destruct (removeAllListeners _) as [w1 [[]|e]]; by eexists.
Qed.

(** ** When a handler returns *)

Lemma plus_normal l r t :
  plus l r = Normal t →
  ∃ a v tv, l = Normal a ∧ r = Normal v ∧ ToString v = Normal tv ∧ t = a ++ tv.
Proof.
  unfold plus, string_plus, mbind, mret, completion_bind, completion_ret.
  destruct l as [a|]; [|done]. destruct r as [v|]; [|done].
  destruct (ToString v) as [tv|] eqn:Hv; [|done]. intros [= <-]. by eexists _, _, _.
Qed.

(** X15: Photoshop.saveAs returns a promise exactly on the payloads whose
    image_path is a string and whose ext and as_copy convert to text; on
    every other payload it throws. *)
Theorem saveAs_returns_iff (data : value) (s : state) :
  (∃ s' q, route_saveAs data s = (s', Normal q))
  ↔ ∃ path ext copy te tc,
      Get data (lit "image_path") = Normal (VString path)
      ∧ Get data (lit "ext") = Normal ext ∧ ToString ext = Normal te
      ∧ Get data (lit "as_copy") = Normal copy ∧ ToString copy = Normal tc.
Proof.
  split.
  - intros (s' & q & Hrun). rewrite route_saveAs_runs in Hrun.
    destruct (saveAs_script data) as [script|] eqn:Hscript; [|done]. clear Hrun.
    unfold saveAs_script in Hscript.
    destruct (Get data (lit "image_path")) as [v|] eqn:Hpath; [|done].
    unfold mbind at 1 in Hscript. unfold completion_bind at 1 in Hscript.
    destruct v as [| | | |path| |]; try done. cbn [EscapeStringForJSX] in Hscript.
    rewrite EscapeStringForJSX_string in Hscript.
    unfold mbind at 1 in Hscript. unfold completion_bind at 1 in Hscript.
    apply plus_normal in Hscript as (a1 & _ & _ & H1 & _ & _ & _).
    apply plus_normal in H1 as (a2 & copy & tc & H2 & Hcopy & Htc & _).
    apply plus_normal in H2 as (a3 & _ & _ & H3 & _ & _ & _).
    apply plus_normal in H3 as (a4 & ext & te & _ & Hext & Hte & _).
    by exists path, ext, copy, te, tc.
  - intros (path & ext & copy & te & tc & Hpath & Hext & Hte & Hcopy & Htc).
    rewrite route_saveAs_runs,
      (saveAs_script_render data path ext copy te tc Hpath Hext Hte Hcopy Htc).
    by eexists _, _.
Qed.

(** X16: Photoshop.set_visible returns a promise exactly on the payloads
    that are neither null nor undefined and whose layer_id and visibility
    convert to text; on every other payload it throws. *)
Theorem set_visible_returns_iff (data : value) (s : state) :
  (∃ s' q, route_set_visible data s = (s', Normal q))
  ↔ ∃ v1 t1 v2 t2,
      Get data (lit "layer_id") = Normal v1 ∧ ToString v1 = Normal t1
      ∧ Get data (lit "visibility") = Normal v2 ∧ ToString v2 = Normal t2.
Proof.
  split.
  - intros (s' & q & Hrun). rewrite route_set_visible_runs in Hrun.
    destruct (set_visible_script data) as [script|] eqn:Hscript; [|done]. clear Hrun.
    unfold set_visible_script in Hscript.
    apply plus_normal in Hscript as (a1 & _ & _ & H1 & _ & _ & _).
    apply plus_normal in H1 as (a2 & v2 & t2 & H2 & Hv2 & Ht2 & _).
    apply plus_normal in H2 as (a3 & _ & _ & H3 & _ & _ & _).
    apply plus_normal in H3 as (a4 & v1 & t1 & _ & Hv1 & Ht1 & _).
    by exists v1, t1, v2, t2.
  - intros (v1 & t1 & v2 & t2 & Hv1 & Ht1 & Hv2 & Ht2).
    rewrite route_set_visible_runs,
      (set_visible_script_render data v1 t1 v2 t2 Hv1 Ht1 Hv2 Ht2).
    by eexists _, _.
Qed.

(** ** What is logged when the host answers *)

(** X17: when the host answers the call of a dispatch that returned, and
    nothing happened in between, the handler logs one more line, its label
    followed by the answer, whatever the answer is: the log then holds the
    dispatch line and that line after what it held before. *)
Theorem answer_is_logged_once name h data s s' q :
  client_routes !! name = Some h →
  h data s = (s', Normal q) →
  ∃ message label,
    console s' = console s ++ [[VString message; data]]
    ∧ ∀ result,
        console (host_answers (length (evalScript_calls s)) result s')
        = console s ++ [[VString message; data]; [VString (label ++ result)]].
Proof.
  intros Hh Hrun.
  destruct (registered_runs name h data s Hh) as [route [(script & label & Heq)|Heq]];
    rewrite Heq in Hrun; [|done]. injection Hrun as <- <-.
  eexists _, label. split; [reflexivity|]. intros result.
  change (length (evalScript_calls s))
    with (length (evalScript_calls (called route data s))).
  rewrite host_answers_submitted, log_result_string. cbn.
  by rewrite <- app_assoc.
Qed.

Lemma answer_is_logged_once_witness :
  ∃ message label,
    console (route_read VNull initial).1 = console initial ++ [[VString message; VNull]]
    ∧ ∀ result,
        console (host_answers (length (evalScript_calls initial)) result
                   (route_read VNull initial).1)
        = console initial ++ [[VString message; VNull]; [VString (label ++ result)]].
Proof.
  exact (answer_is_logged_once (lit "Photoshop.read") route_read VNull initial
           (route_read VNull initial).1 1%nat client_routes_read eq_refl).
Defined.

(** ** The handlers that take no argument from the payload *)

(** X18: whatever the payload, Photoshop.get_layers submits the script
    getLayers() and returns a promise that is pending as long as the host has
    not answered that call, and that the answer r of the host fulfils with r
    itself, for good. *)
Theorem get_layers_passes_result_through (data : value) (s : state) :
  well_formed s →
  ∃ s' p q,
    route_get_layers data s = (s', Normal q)
    ∧ evalScript_calls s' = evalScript_calls s ++ [(lit "getLayers()", Resolve p)]
    ∧ ∀ acts,
        forallb (λ a, negb (is_answer_to (length (evalScript_calls s)) a)) acts = true →
        status_of q (perform_all acts s') = Some Pending
        ∧ ∀ r acts',
            status_of q (perform_all
                           (acts ++ HostAnswers (length (evalScript_calls s)) r :: acts') s')
            = Some (Fulfilled (VString r)).
Proof.
  intros Hwf. rewrite route_get_layers_runs.
  destruct (submitted_invoked_once (lit "getLayers()") (lit "getLayers: ")
              (called "get_layers" data s) Hwf) as ([p Hp] & Hq).
  eexists _, p, _. split; [reflexivity|]. split; [exact Hp|]. exact Hq.
Qed.

Lemma get_layers_passes_result_through_witness :
  well_formed initial
  ∧ ∃ s' p q,
      route_get_layers VNull initial = (s', Normal q)
      ∧ evalScript_calls s' = evalScript_calls initial ++ [(lit "getLayers()", Resolve p)]
      ∧ ∀ acts,
          forallb (λ a, negb (is_answer_to (length (evalScript_calls initial)) a)) acts
          = true →
          status_of q (perform_all acts s') = Some Pending
          ∧ ∀ r acts',
              status_of q (perform_all
                             (acts ++ HostAnswers (length (evalScript_calls initial)) r
                                   :: acts') s')
              = Some (Fulfilled (VString r)).
Proof.
  split; [exact well_formed_initial|].
  exact (get_layers_passes_result_through VNull initial well_formed_initial).
Defined.

(** X19: whatever the payload, Photoshop.get_active_document_name submits
    the script getActiveDocumentName() and returns a promise that is pending
    as long as the host has not answered that call, and that the answer r of
    the host fulfils with r itself, for good. *)
Theorem get_active_document_name_passes_result_through (data : value) (s : state) :
  well_formed s →
  ∃ s' p q,
    route_get_active_document_name data s = (s', Normal q)
    ∧ evalScript_calls s'
      = evalScript_calls s ++ [(lit "getActiveDocumentName()", Resolve p)]
    ∧ ∀ acts,
        forallb (λ a, negb (is_answer_to (length (evalScript_calls s)) a)) acts = true →
        status_of q (perform_all acts s') = Some Pending
        ∧ ∀ r acts',
            status_of q (perform_all
                           (acts ++ HostAnswers (length (evalScript_calls s)) r :: acts') s')
            = Some (Fulfilled (VString r)).
Proof.
  intros Hwf. rewrite route_get_active_document_name_runs.
  destruct (submitted_invoked_once (lit "getActiveDocumentName()") (lit "save: ")
              (called "get_active_document_name" data s) Hwf) as ([p Hp] & Hq).
  eexists _, p, _. split; [reflexivity|]. split; [exact Hp|]. exact Hq.
Qed.

Lemma get_active_document_name_passes_result_through_witness :
  well_formed initial
  ∧ ∃ s' p q,
      route_get_active_document_name VNull initial = (s', Normal q)
      ∧ evalScript_calls s'
        = evalScript_calls initial ++ [(lit "getActiveDocumentName()", Resolve p)]
      ∧ ∀ acts,
          forallb (λ a, negb (is_answer_to (length (evalScript_calls initial)) a)) acts
          = true →
          status_of q (perform_all acts s') = Some Pending
          ∧ ∀ r acts',
              status_of q (perform_all
                             (acts ++ HostAnswers (length (evalScript_calls initial)) r
                                   :: acts') s')
              = Some (Fulfilled (VString r)).
Proof.
  split; [exact well_formed_initial|].
  exact (get_active_document_name_passes_result_through VNull initial well_formed_initial).
Defined.
